(** * uniq_seq.cpp: the finite-field unique-sequence generator [UniqueSeq]

    A shallow embedding of class [UniqueSeq] of [uniq_seq.cpp]
    (prime selection, the quadratic-residue permutation, the constructor and
    [next()]), with the properties of its specification.

    Machine integers are [Z] with the wrap-around written out:
    [unsigned int] is 32 bits wide, [size_t] and [unsigned long long] are
    64 bits wide. *)

From Stdlib Require Import ZArith Znumtheory Lia List Bool.
From Stdlib Require Zmod.ZmodInv.
Import ListNotations.

Local Open Scope Z_scope.

(** ** Machine arithmetic *)

Module Width.

Definition uint_max : Z := 4294967295.

(** conversion to [unsigned int] *)
Definition u32 (x : Z) : Z := x mod 2 ^ 32.

(** conversion to [size_t] / [unsigned long long] *)
Definition u64 (x : Z) : Z := x mod 2 ^ 64.

End Width.
Import Width.

(** ** Bounded loops

    A [do { body } while (cond)] loop is a step function from the loop state
    to either the next loop state ([inl], the condition held) or the result
    ([inr], the loop was left).  [loop_pos] runs at most [fuel] steps, the
    fuel being a binary number so that bounds such as [2^32] cost nothing;
    [loop_nat] is the same loop counted in unary, for proofs. *)

Section Loops.

Context {S R : Type}.
Variable body : S -> S + R.

Fixpoint loop_nat (fuel : nat) (s : S) : S + R :=
  match fuel with
  | O => inl s
  | Datatypes.S fuel' =>
      match body s with
      | inl s' => loop_nat fuel' s'
      | inr r => inr r
      end
  end.

Fixpoint loop_pos (fuel : positive) (s : S) : S + R :=
  match fuel with
  | xH => body s
  | xO fuel' =>
      match loop_pos fuel' s with
      | inl s' => loop_pos fuel' s'
      | inr r => inr r
      end
  | xI fuel' =>
      match body s with
      | inl s1 =>
          match loop_pos fuel' s1 with
          | inl s2 => loop_pos fuel' s2
          | inr r => inr r
          end
      | inr r => inr r
      end
  end.

End Loops.

(** ** The next-prime collaborator *)

Module NextPrime.

(** Modelled from the spec: the primality test of the next-prime
    collaborator, by trial division: no [d' >= d] with [d' * d' <= n]
    divides [n]. *)
Fixpoint no_divisor_from (fuel : nat) (d n : Z) : bool :=
  match fuel with
  | O => true
  | Datatypes.S fuel' =>
      if d * d >? n then true
      else if n mod d =? 0 then false
      else no_divisor_from fuel' (d + 1) n
  end.

(** Modelled from the spec: the collaborator's primality test. *)
Definition is_prime (n : Z) : bool :=
  (1 <? n) && no_divisor_from (Z.to_nat (Z.sqrt n)) 2 n.

(** Modelled from the spec: one probe of the collaborator's upward search,
    which stops at a prime and gives up when the candidate leaves
    [size_t]. *)
Definition search_step (c : Z) : Z + option Z :=
  if is_prime c then inr (Some c)
  else if c + 1 >? 2 ^ 64 - 1 then inr None
  else inl (c + 1).

(** Modelled from the spec: [__next_prime] of [next_prime.cpp], a file that
    is not among the sources ([uniq_seq.cpp] only declares
    [size_t __next_prime(size_t n)]).  The spec describes the collaborator
    through the loop that consumes it: starting from [range - 1], every
    query answers the smallest prime strictly greater than the loop
    variable, and the prime selected is the smallest suitable prime
    [p >= range].  The source issues the query for the loop variable [prime]
    as [__next_prime(prime + 1)]; so [__next_prime m] is the smallest prime
    strictly greater than [m - 1], the smallest prime not below [m].  (A
    collaborator answering strictly above its own argument would make the
    loop skip a suitable prime [range], against the spec's [p >= range].)
    [None] is the collaborator's own failure (no prime left in [size_t]). *)
Definition __next_prime (n : Z) : option Z :=
  match loop_pos search_step (2 ^ 64)%positive n with
  | inr r => r
  | inl _ => None
  end.

End NextPrime.
Import NextPrime.

(** ** class UniqueSeq *)

Record UniqueSeq : Type := mkUniqueSeq {
  m_index : Z;
  m_intermediateOffset : Z;
  m_prime : Z;
  m_range : Z
}.

Definition set_index (g : UniqueSeq) (i : Z) : UniqueSeq :=
  {| m_index := i;
     m_intermediateOffset := m_intermediateOffset g;
     m_prime := m_prime g;
     m_range := m_range g |}.

Definition largest_prime32 : Z := 4294967291.

(** [do { prime = __next_prime(prime+1); } while (prime%4 != 3);] *)
Definition suitable_step (prime : Z) : Z + option Z :=
  match __next_prime (u64 (prime + 1)) with
  | None => inr None
  | Some prime' =>
      if negb (prime' mod 4 =? 3) then inl prime' else inr (Some prime')
  end.

Definition get_next_suitable_prime (n : Z) : option Z :=
  let prime := u64 (n - 1) in
  match loop_pos suitable_step (2 ^ 64)%positive prime with
  | inr r => r
  | inl _ => None
  end.

(** [permuteQPR] reads the field [m_prime] only; the constructor calls it
    before the other fields are set, so the field is passed explicitly. *)
Definition permuteQPR (m_prime x : Z) : Z :=
  if x >=? m_prime then x
  else
    let residue := u32 (u64 (x * x) mod m_prime) in
    if x <=? m_prime / 2 then residue else u32 (m_prime - residue).

(** The constructor.  Its parameters are [unsigned int]: an argument is
    converted modulo [2^32] on the way in.  The only way it can fail is
    through its collaborator. *)
Definition UniqueSeq_ctor (range seed : Z) : option UniqueSeq :=
  let range := u32 range in
  let seed := u32 seed in
  match
    (if range >? 4294967291 then Some 4294967291
     else option_map u32 (get_next_suitable_prime range))
  with
  | None => None
  | Some prime =>
      let index :=
        permuteQPR prime
          (u32 (u32 (permuteQPR prime seed + u32 (2 * prime)) - range)) in
      Some {| m_index := index;
              m_intermediateOffset := u32 (prime - range);
              m_prime := prime;
              m_range := range |}
  end.

(** What a call of [next()] can do: return a value and leave the generator
    in a new state, divide by zero (in [% m_prime]), or never leave its
    loop. *)
Inductive outcome : Type :=
| Returned (res : Z) (g : UniqueSeq)
| DivisionByZero
| Diverged.

Definition candidate (g : UniqueSeq) : Z :=
  permuteQPR (m_prime g) (permuteQPR (m_prime g) (m_index g)).

Definition advance (g : UniqueSeq) : UniqueSeq :=
  set_index g (u32 (m_index g + 1) mod m_prime g).

(** One round of [do { res = ...; m_index = ...; } while (res > m_range);] *)
Definition next_step (g : UniqueSeq) : UniqueSeq + outcome :=
  let res := candidate g in
  if m_prime g =? 0 then inr DivisionByZero
  else
    let g' := advance g in
    if res >? m_range g then inl g' else inr (Returned res g').

(** An [unsigned int] index can go through at most [2^32] rounds before the
    loop state repeats. *)
Definition next (g : UniqueSeq) : outcome :=
  match loop_pos next_step (2 ^ 32)%positive g with
  | inr o => o
  | inl _ => Diverged
  end.

(** [n] successive calls of [next()]: the values in call order and the final
    state; [None] as soon as a call does not return. *)
Fixpoint run_next (n : nat) (g : UniqueSeq) : option (list Z * UniqueSeq) :=
  match n with
  | O => Some ([], g)
  | Datatypes.S n' =>
      match next g with
      | Returned res g' =>
          match run_next n' g' with
          | Some (rest, g'') => Some (res :: rest, g'')
          | None => None
          end
      | _ => None
      end
  end.

Definition outputs (n : nat) (g : UniqueSeq) : option (list Z) :=
  option_map fst (run_next n g).

(** The states a generator built from [(range, seed)] goes through. *)
Inductive reachable (range seed : Z) : UniqueSeq -> Prop :=
| reach_ctor g :
    UniqueSeq_ctor range seed = Some g -> reachable range seed g
| reach_next g res g' :
    reachable range seed g -> next g = Returned res g' ->
    reachable range seed g'.

(** ** Vocabulary of the statements *)

(** [q] is the smallest prime not below [n]. *)
Definition least_prime_from (n q : Z) : Prop :=
  prime q /\ n <= q /\ forall q', prime q' -> n <= q' -> q <= q'.

Definition suitable (q : Z) : Prop := prime q /\ q mod 4 = 3.

Definition least_suitable_from (n q : Z) : Prop :=
  suitable q /\ n <= q /\ forall q', suitable q' -> n <= q' -> q <= q'.

(** The probe sequence of [get_next_suitable_prime]: from the loop variable
    [n], query the collaborator for the next prime after [n] and feed the
    answer back in until it is congruent to 3 modulo 4. *)
Inductive probes_to : Z -> Z -> Prop :=
| probe_hit n q :
    __next_prime (u64 (n + 1)) = Some q -> q mod 4 = 3 -> probes_to n q
| probe_miss n q q' :
    __next_prime (u64 (n + 1)) = Some q -> q mod 4 <> 3 ->
    probes_to q q' -> probes_to n q'.

(** The integers of [[0, n)]. *)
Definition zrange (n : Z) : list Z := map Z.of_nat (seq 0 (Z.to_nat n)).

(** [f] maps [[0, n)] one-to-one onto itself. *)
Definition bijection_below (n : Z) (f : Z -> Z) : Prop :=
  (forall x, 0 <= x < n -> 0 <= f x < n) /\
  (forall x y, 0 <= x < n -> 0 <= y < n -> f x = f y -> x = y) /\
  (forall y, 0 <= y < n -> exists x, 0 <= x < n /\ f x = y).

(** A generator state as the constructor and [next()] leave it. *)
Record valid (g : UniqueSeq) : Prop := {
  valid_prime : suitable (m_prime g);
  valid_prime_uint : m_prime g <= largest_prime32;
  valid_range : 0 <= m_range g < 2 ^ 32;
  valid_index : 0 <= m_index g < 2 ^ 32
}.

Definition selected_prime (range prime : Z) : Prop :=
  if range >? 4294967291 then prime = 4294967291
  else least_suitable_from range prime /\ probes_to (u64 (range - 1)) prime.

(** [rounds g n res g']: from state [g] the loop body runs [n] rounds whose
    candidate is rejected and one more round whose candidate [res] is
    accepted, leaving state [g']. *)
Inductive rounds : UniqueSeq -> nat -> Z -> UniqueSeq -> Prop :=
| rounds_accept g :
    candidate g <= m_range g -> rounds g 0 (candidate g) (advance g)
| rounds_reject g n res g' :
    candidate g > m_range g -> rounds (advance g) n res g' ->
    rounds g (Datatypes.S n) res g'.

(** The generator with another value in its offset field. *)
Definition set_intermediateOffset (g : UniqueSeq) (o : Z) : UniqueSeq :=
  {| m_index := m_index g;
     m_intermediateOffset := o;
     m_prime := m_prime g;
     m_range := m_range g |}.

(** The outcome of [next()] with another value in the offset field of the
    state it leaves. *)
Definition outcome_with_offset (o : outcome) (offset : Z) : outcome :=
  match o with
  | Returned res g => Returned res (set_intermediateOffset g offset)
  | DivisionByZero => DivisionByZero
  | Diverged => Diverged
  end.

(** The states of [n] successive rounds, and the candidates accepted in
    them. *)
Fixpoint iterates (n : nat) (g : UniqueSeq) : list UniqueSeq :=
  match n with
  | O => []
  | Datatypes.S n' => g :: iterates n' (advance g)
  end.

Definition accepted (n : nat) (g : UniqueSeq) : list Z :=
  filter (fun v => v <=? m_range g) (map candidate (iterates n g)).

(** ** The functions around the class

    [check], the three [choose...] functions and the loop of [testRandom].
    [int] is 32 bits wide.  A function of the source can return, throw,
    run into undefined behaviour (an [int] that overflows, a precondition
    of the standard library that fails), or still be running when the
    bound of the model, fuel or a finite list of random draws, is used
    up. *)

Definition int_max : Z := 2147483647.

(** conversion to [int] *)
Definition s32 (x : Z) : Z := (x + 2 ^ 31) mod 2 ^ 32 - 2 ^ 31.

Inductive exception : Type :=
| length_error
    (* std::vector's constructor, asked for more than max_size() elements *)
| out_of_range
    (* std::vector<bool>::at *)
| next_prime_failure
    (* whatever __next_prime throws when it finds no prime *)
| sequence_mismatch (i j v : Z).
    (* the std::exception of check, thrown after it has printed
       Sequence mismatch: seq[i] == seq[j] == v *)

Inductive result (A : Type) : Type :=
| Returns (a : A)
| Throws (e : exception)
| Undefined
| Unfinished.

Arguments Returns {A} a.
Arguments Throws {A} e.
Arguments Undefined {A}.
Arguments Unfinished {A}.

(** [res[i] = v] on a vector; the source only writes below [size()]. *)
Fixpoint vec_set {A : Type} (l : list A) (i : nat) (v : A) : list A :=
  match l, i with
  | [], _ => []
  | _ :: rest, O => v :: rest
  | x :: rest, Datatypes.S i' => x :: vec_set rest i' v
  end.

(** [for(int j=...; j<count; j++) if(seq[i] == seq[j]) throw ...]:
    [trips] is the number of values of [j] below [count]. *)
Fixpoint check_inner (seq : list Z) (i j : Z) (trips : nat) : result unit :=
  match trips with
  | O => Returns tt
  | Datatypes.S trips' =>
      if nth (Z.to_nat i) seq 0 =? nth (Z.to_nat j) seq 0
      then Throws (sequence_mismatch i j (nth (Z.to_nat i) seq 0))
      else if j =? int_max then Undefined
      else check_inner seq i (j + 1) trips'
  end.

(** [for(int i=0; i<count; i++) { for(int j=i+1; ...) ... }] *)
Fixpoint check_outer (seq : list Z) (i : Z) (trips : nat) : result unit :=
  match trips with
  | O => Returns tt
  | Datatypes.S trips' =>
      if i =? int_max then Undefined
      else
        let count := Z.of_nat (length seq) in
        match check_inner seq i (i + 1) (Z.to_nat (count - (i + 1))) with
        | Returns _ => check_outer seq (i + 1) trips'
        | other => other
        end
  end.

Definition check (seq : list Z) : result unit :=
  check_outer seq 0 (length seq).

(** [chooseSmart]: the vector is built first, then the generator (with the
    default seed 1), then every element is assigned the next value, in
    order, converted to [int]. *)
Definition chooseSmart (count universeSize : Z) : result (list Z) :=
  if count <? 0 then Throws length_error
  else
    match UniqueSeq_ctor universeSize 1 with
    | None => Throws next_prime_failure
    | Some generator =>
        match run_next (Z.to_nat count) generator with
        | Some (res, _) => Returns (map s32 res)
        | None => Unfinished
        end
    end.

(** [class Generator] wraps [std::mt19937] and
    [std::uniform_int_distribution<int>] of the standard library.  They are
    taken as given: a generator is the sequence of the values its successive
    calls of [next()] return, and the properties below assume of them what
    the distribution guarantees, that they lie in [[0, universeSize]]. *)
Definition Generator : Type := list Z.

(** [for(int j=0; j<i; j++) if(res[j] == candidate) not_in_seq = false;] *)
Fixpoint naive_scan (res : list Z) (candidate : Z) (j : Z) (trips : nat)
    (not_in_seq : bool) : bool :=
  match trips with
  | O => not_in_seq
  | Datatypes.S trips' =>
      naive_scan res candidate (j + 1) trips'
        (if nth (Z.to_nat j) res 0 =? candidate then false else not_in_seq)
  end.

(** The [while(i<count)] loop of [chooseNaive]; every round takes one value
    from the generator. *)
Fixpoint naive_loop (count : Z) (res : list Z) (i : Z)
    (generator : Generator) : result (list Z) :=
  if i <? count then
    match generator with
    | [] => Unfinished
    | candidate :: generator' =>
        if naive_scan res candidate 0 (Z.to_nat i) true
        then naive_loop count (vec_set res (Z.to_nat i) candidate) (i + 1)
               generator'
        else naive_loop count res i generator'
    end
  else Returns res.

Definition chooseNaive (count universeSize : Z) (generator : Generator)
  : result (list Z) :=
  if count <? 0 then Throws length_error
  else if universeSize <? 0 then Undefined
  else naive_loop count (repeat 0 (Z.to_nat count)) 0 generator.

(** The [while(i<count)] loop of [chooseBitfield]; [alreadySeen.at] checks
    its index, converted to [size_t], against the size of the vector. *)
Fixpoint bitfield_loop (count : Z) (res : list Z) (alreadySeen : list bool)
    (i : Z) (generator : Generator) : result (list Z) :=
  if i <? count then
    match generator with
    | [] => Unfinished
    | candidate :: generator' =>
        if (0 <=? candidate)
           && (candidate <? Z.of_nat (length alreadySeen))
        then
          if negb (nth (Z.to_nat candidate) alreadySeen false)
          then bitfield_loop count
                 (vec_set res (Z.to_nat i) candidate)
                 (vec_set alreadySeen (Z.to_nat candidate) true)
                 (i + 1) generator'
          else bitfield_loop count res alreadySeen i generator'
        else Throws out_of_range
    end
  else Returns res.

Definition chooseBitfield (count universeSize : Z) (generator : Generator)
  : result (list Z) :=
  if count <? 0 then Throws length_error
  else if universeSize =? int_max then Undefined
  else if universeSize + 1 <? 0 then Throws length_error
  else if universeSize <? 0 then Undefined
  else bitfield_loop count (repeat 0 (Z.to_nat count))
         (repeat false (Z.to_nat (universeSize + 1))) 0 generator.

(** The loop of [testRandom], without the clock and the printing:
    [for(int count=count_start; count<count_end; count+=count_inc)], with
    the template parameters [choose] and [checkValid] as arguments.  An
    [int] counter that does not leave the loop within [2^32] rounds never
    does. *)
Definition testRandom_step (choose : Z -> Z -> result (list Z))
    (checkValid : bool) (universeSize count_end count_inc : Z) (count : Z)
  : Z + result unit :=
  if count <? count_end then
    match choose count universeSize with
    | Returns seq =>
        match (if checkValid then check seq else Returns tt) with
        | Returns _ =>
            if (count + count_inc >? int_max)
               || (count + count_inc <? - int_max - 1)
            then inr Undefined
            else inl (count + count_inc)
        | other => inr other
        end
    | Throws e => inr (Throws e)
    | Undefined => inr Undefined
    | Unfinished => inr Unfinished
    end
  else inr (Returns tt).

Definition testRandom (choose : Z -> Z -> result (list Z))
    (checkValid : bool) (universeSize count_start count_end count_inc : Z)
  : result unit :=
  match
    loop_pos (testRandom_step choose checkValid universeSize count_end
                count_inc) (2 ^ 32)%positive count_start
  with
  | inr r => r
  | inl _ => Unfinished
  end.

(** The values of a list in the order of their first occurrence, those of
    [seen] left out. *)
Fixpoint first_occurrences (seen l : list Z) : list Z :=
  match l with
  | [] => []
  | x :: rest =>
      if existsb (Z.eqb x) seen then first_occurrences seen rest
      else x :: first_occurrences (seen ++ [x]) rest
  end.

(** [(i, j)] is the first pair of positions of [seq], in the order [check]
    visits them, that hold the same value. *)
Definition first_duplicate (seq : list Z) (i j : nat) : Prop :=
  (i < j < length seq)%nat /\
  nth i seq 0 = nth j seq 0 /\
  forall i' j', (i' < j' < length seq)%nat ->
    nth i' seq 0 = nth j' seq 0 ->
    (i < i')%nat \/ (i = i' /\ (j <= j')%nat).

(** The bit vector of [chooseBitfield] marks exactly the values stored in
    the first [i] places of the result. *)
Definition seen_matches (universeSize : Z) (res : list Z)
    (alreadySeen : list bool) (i : nat) : Prop :=
  length alreadySeen = Z.to_nat (universeSize + 1) /\
  forall v, 0 <= v <= universeSize ->
    nth (Z.to_nat v) alreadySeen false = existsb (Z.eqb v) (firstn i res).

(** The index after [k] rounds of the loop of [next()], from index [i]:
    every round stores [(m_index+1) % m_prime], the sum being an
    [unsigned int] sum. *)
Definition index_after (m_prime : Z) (k : nat) (i : Z) : Z :=
  Nat.iter k (fun index => u32 (index + 1) mod m_prime) i.

(** * Properties *)

(** ** Loops *)

Section LoopFacts.

Context {S R : Type}.
Variable body : S -> S + R.

Lemma loop_nat_S (n : nat) (s : S) :
  loop_nat body (Datatypes.S n) s =
  match body s with
  | inl s' => loop_nat body n s'
  | inr r => inr r
  end.
Proof. reflexivity. Qed.

Lemma loop_nat_add (a b : nat) (s : S) :
  loop_nat body (a + b) s =
  match loop_nat body a s with
  | inl s' => loop_nat body b s'
  | inr r => inr r
  end.
Proof.
  revert s; induction a as [|a IH]; intros s; simpl; [reflexivity|].
  destruct (body s) as [s'|r]; [apply IH | reflexivity].
Qed.

Lemma loop_pos_nat (fuel : positive) (s : S) :
  loop_pos body fuel s = loop_nat body (Pos.to_nat fuel) s.
Proof.
  revert s; induction fuel as [q IH|q IH|]; intros s; simpl loop_pos.
  - rewrite Pos2Nat.inj_xI.
    change (Datatypes.S (2 * Pos.to_nat q))
      with (1 + (2 * Pos.to_nat q))%nat.
    rewrite loop_nat_add; simpl loop_nat at 1.
    destruct (body s) as [s1|r]; [|reflexivity].
    replace (2 * Pos.to_nat q)%nat with (Pos.to_nat q + Pos.to_nat q)%nat
      by lia.
    rewrite loop_nat_add, <- IH.
    destruct (loop_pos body q s1); [apply IH | reflexivity].
  - rewrite Pos2Nat.inj_xO.
    replace (2 * Pos.to_nat q)%nat with (Pos.to_nat q + Pos.to_nat q)%nat
      by lia.
    rewrite loop_nat_add, <- IH.
    destruct (loop_pos body q s); [apply IH | reflexivity].
  - simpl. destruct (body s); reflexivity.
Qed.

Lemma loop_nat_done_mono (n m : nat) (s : S) (r : R) :
  (n <= m)%nat -> loop_nat body n s = inr r -> loop_nat body m s = inr r.
Proof.
  intros Hle Hn.
  replace m with (n + (m - n))%nat by lia.
  rewrite loop_nat_add, Hn; reflexivity.
Qed.

(** A loop that finishes within the fuel of [loop_pos] finishes there
    with the same result. *)
Lemma loop_pos_done (fuel : positive) (n : nat) (s : S) (r : R) :
  (n <= Pos.to_nat fuel)%nat ->
  loop_nat body n s = inr r -> loop_pos body fuel s = inr r.
Proof.
  intros Hle Hn. rewrite loop_pos_nat.
  eapply loop_nat_done_mono; eassumption.
Qed.

End LoopFacts.

(** ** Primality by trial division *)

Lemma no_divisor_from_spec (fuel : nat) (d n : Z) :
  1 <= d -> Z.sqrt n < d + Z.of_nat fuel ->
  no_divisor_from fuel d n = true <->
  (forall k, d <= k -> k * k <= n -> n mod k <> 0).
Proof.
  revert d; induction fuel as [|fuel IH]; intros d Hd Hfuel; simpl.
  - split; [intros _ k Hk Hkk | reflexivity].
    exfalso.
    assert (Hs : k <= Z.sqrt n).
    { apply Z.sqrt_le_square; nia. }
    lia.
  - destruct (Z.gtb_spec (d * d) n) as [Hgt|Hle].
    + split; [intros _ k Hk Hkk | reflexivity]. nia.
    + destruct (Z.eqb_spec (n mod d) 0) as [Hdiv|Hndiv].
      * split; [discriminate|]. intros H. exfalso.
        apply (H d); [lia | assumption | assumption].
      * rewrite IH by lia. split; intros H k Hk Hkk.
        -- destruct (Z.eq_dec k d) as [->|Hne]; [assumption|].
           apply H; [lia | assumption].
        -- apply H; [lia | assumption].
Qed.

Lemma is_prime_spec (n : Z) : is_prime n = true <-> prime n.
Proof.
  unfold is_prime. rewrite andb_true_iff, Z.ltb_lt, <- prime_alt.
  split.
  - intros [Hn Htrial]. split; [assumption|].
    intros m Hm [q Hq].
    rewrite no_divisor_from_spec in Htrial by lia.
    assert (Hq1 : 1 < q) by nia.
    destruct (Z_le_gt_dec (m * m) n) as [Hmm|Hmm].
    + apply (Htrial m); [lia | assumption |].
      subst n. apply Z.mod_mul; lia.
    + apply (Htrial q); [lia | nia |].
      subst n. rewrite Z.mul_comm. apply Z.mod_mul; lia.
  - intros [Hn Hnodiv]. split; [assumption|].
    rewrite no_divisor_from_spec by lia.
    intros k Hk Hkk Hmod.
    apply (Hnodiv k); [nia|].
    apply Z.mod_divide; [lia | assumption].
Qed.

Lemma largest_prime32_prime : prime largest_prime32.
Proof. apply is_prime_spec. vm_compute. reflexivity. Qed.

(** ** The next-prime collaborator meets its contract *)

Lemma search_finds (bound : Z) (k : nat) (n : Z) :
  prime bound -> bound < 2 ^ 64 -> 0 <= n -> n + Z.of_nat k = bound ->
  exists q,
    loop_nat search_step (Datatypes.S k) n = inr (Some q) /\
    q <= bound /\ least_prime_from n q.
Proof.
  intros Hb Hb64. revert n.
  induction k as [|k IH]; intros n Hn Hk.
  - exists n. replace n with bound by lia.
    simpl. unfold search_step.
    rewrite (proj2 (is_prime_spec bound) Hb).
    split; [reflexivity|]. split; [lia|].
    split; [assumption|]. split; [lia | intros; lia].
  - rewrite loop_nat_S. unfold search_step at 1.
    destruct (is_prime n) eqn:Hp.
    + exists n. apply is_prime_spec in Hp.
      split; [reflexivity|]. split; [lia|].
      split; [assumption|]. split; [lia | intros; lia].
    + destruct (Z.gtb_spec (n + 1) (2 ^ 64 - 1)) as [Hover|_]; [lia|].
      destruct (IH (n + 1)) as (q & Hloop & Hqb & Hq & Hnq & Hleast);
        [lia | lia |].
      exists q. split; [assumption|]. split; [assumption|].
      split; [assumption|]. split; [lia|].
      intros q' Hq' Hnq'.
      apply Hleast; [assumption|].
      destruct (Z.eq_dec q' n) as [->|Hne]; [|lia].
      apply is_prime_spec in Hq'. congruence.
Qed.

Lemma next_prime_spec (bound n : Z) :
  prime bound -> bound < 2 ^ 32 -> 0 <= n <= bound ->
  exists q, __next_prime n = Some q /\ q <= bound /\ least_prime_from n q.
Proof.
  intros Hb Hb32 Hn.
  destruct (search_finds bound (Z.to_nat (bound - n)) n)
    as (q & Hloop & Hq); [assumption | lia | lia | lia |].
  exists q. split; [|assumption].
  unfold __next_prime.
  assert (Hfuel : (Datatypes.S (Z.to_nat (bound - n))
                   <= Pos.to_nat (2 ^ 64))%nat).
  { change (2 ^ 64)%positive with 18446744073709551616%positive. lia. }
  rewrite (loop_pos_done search_step _ _ _ _ Hfuel Hloop).
  reflexivity.
Qed.

(** ** Prime selection *)

Lemma largest_prime32_suitable : suitable largest_prime32.
Proof. split; [apply largest_prime32_prime | reflexivity]. Qed.

Lemma u64_small (x : Z) : 0 <= x < 2 ^ 64 -> u64 x = x.
Proof. intros H. unfold u64. apply Z.mod_small. assumption. Qed.

Lemma u32_small (x : Z) : 0 <= x < 2 ^ 32 -> u32 x = x.
Proof. intros H. unfold u32. apply Z.mod_small. assumption. Qed.

Lemma u32_range (x : Z) : 0 <= u32 x < 2 ^ 32.
Proof. unfold u32. apply Z.mod_pos_bound. lia. Qed.

Lemma suitable_loop (k : nat) (pr : Z) :
  u64 (pr + 1) <= largest_prime32 ->
  largest_prime32 - u64 (pr + 1) <= Z.of_nat k ->
  exists q,
    loop_nat suitable_step (Datatypes.S k) pr = inr (Some q) /\
    q <= largest_prime32 /\
    least_suitable_from (u64 (pr + 1)) q /\
    probes_to pr q.
Proof.
  revert pr; induction k as [|k IH]; intros pr Hm Hk.
  - assert (Hm0 : 0 <= u64 (pr + 1)) by (apply Z.mod_pos_bound; lia).
    destruct (next_prime_spec largest_prime32 (u64 (pr + 1)))
      as (q & Hq & Hqb & Hqp & Hqm & Hql);
      [apply largest_prime32_prime | reflexivity | lia |].
    assert (q = largest_prime32) by lia. subst q.
    exists largest_prime32. rewrite loop_nat_S.
    unfold suitable_step. rewrite Hq.
    change (largest_prime32 mod 4 =? 3) with true. cbn [negb].
    split; [reflexivity|]. split; [lia|]. split.
    + split; [apply largest_prime32_suitable|]. split; [lia|].
      intros q' [Hq' _] Hle. apply Hql; assumption.
    + apply probe_hit; [assumption | reflexivity].
  - assert (Hm0 : 0 <= u64 (pr + 1)) by (apply Z.mod_pos_bound; lia).
    destruct (next_prime_spec largest_prime32 (u64 (pr + 1)))
      as (q & Hq & Hqb & Hqp & Hqm & Hql);
      [apply largest_prime32_prime | reflexivity | lia |].
    rewrite loop_nat_S.
    unfold suitable_step at 1. rewrite Hq.
    destruct (Z.eqb_spec (q mod 4) 3) as [Hmod|Hmod]; cbn [negb].
    + exists q. split; [reflexivity|]. split; [assumption|]. split.
      * split; [split; assumption|]. split; [assumption|].
        intros q' [Hq' _] Hle. apply Hql; assumption.
      * apply probe_hit; assumption.
    + assert (Hlt : q < largest_prime32).
      { destruct (Z.eq_dec q largest_prime32) as [->|]; [|lia].
        exfalso. apply Hmod. reflexivity. }
      assert (Hq1 : u64 (q + 1) = q + 1).
      { apply u64_small. unfold largest_prime32 in *. lia. }
      destruct (IH q) as (q2 & Hloop & Hq2b & (Hq2s & Hq2m & Hq2l) & Hpr);
        [rewrite Hq1; lia | rewrite Hq1; lia |].
      exists q2. split; [assumption|]. split; [assumption|]. split.
      * split; [assumption|]. split; [rewrite Hq1 in Hq2m; lia|].
        intros q' Hq' Hle. apply Hq2l; [assumption|]. rewrite Hq1.
        assert (q <= q') by (apply Hql; [apply Hq' | assumption]).
        destruct (Z.eq_dec q q') as [->|]; [|lia].
        exfalso. apply Hmod. apply Hq'.
      * eapply probe_miss; eassumption.
Qed.

Lemma get_next_suitable_prime_spec (n : Z) :
  0 <= n <= largest_prime32 ->
  exists q,
    get_next_suitable_prime n = Some q /\
    q <= largest_prime32 /\
    least_suitable_from n q /\
    probes_to (u64 (n - 1)) q.
Proof.
  intros Hn.
  assert (Hu1 : u64 (u64 (n - 1) + 1) = n).
  { unfold u64. rewrite Zplus_mod_idemp_l.
    replace (n - 1 + 1) with n by lia.
    apply Z.mod_small. unfold largest_prime32 in *. lia. }
  destruct (suitable_loop (Z.to_nat (largest_prime32 - n)) (u64 (n - 1)))
    as (q & Hloop & Hqb & Hq & Hpr); [rewrite Hu1; lia | rewrite Hu1; lia |].
  rewrite Hu1 in Hq.
  exists q. split; [|split; [assumption | split; assumption]].
  unfold get_next_suitable_prime.
  assert (Hfuel : (Datatypes.S (Z.to_nat (largest_prime32 - n))
                   <= Pos.to_nat (2 ^ 64))%nat).
  { change (2 ^ 64)%positive with 18446744073709551616%positive.
    unfold largest_prime32. lia. }
  rewrite (loop_pos_done suitable_step _ _ _ _ Hfuel Hloop).
  reflexivity.
Qed.

(** Each query of the probe sequence answers with the smallest prime
    strictly greater than the loop variable. *)
Lemma probe_spec (n q : Z) :
  0 <= n < largest_prime32 ->
  __next_prime (u64 (n + 1)) = Some q ->
  prime q /\ n < q /\ forall q', prime q' -> n < q' -> q <= q'.
Proof.
  intros Hn Hq.
  rewrite u64_small in Hq by (unfold largest_prime32 in *; lia).
  destruct (next_prime_spec largest_prime32 (n + 1))
    as (q0 & Hq0 & _ & Hp & Hle & Hleast);
    [apply largest_prime32_prime | reflexivity | lia |].
  assert (q0 = q) by congruence. subst q0.
  split; [assumption|]. split; [lia|].
  intros q' Hq' Hlt. apply Hleast; [assumption | lia].
Qed.

(** ** Quadratic residues modulo a prime congruent to 3 modulo 4 *)

Section QuadraticResidues.

Variable p : Z.
Hypothesis p_prime : prime p.
Hypothesis p_mod4 : p mod 4 = 3.

Lemma p_ge_3 : 3 <= p.
Proof.
  destruct p_prime as [Hp _].
  assert (p <> 2) by (intros ->; discriminate p_mod4).
  lia.
Qed.

Lemma prime_divides_square (x : Z) : (x * x) mod p = 0 -> x mod p = 0.
Proof.
  pose proof p_ge_3 as Hp3. intros H.
  apply Z.mod_divide in H; [|lia].
  apply Z.mod_divide; [lia|].
  apply Z.divide_prime_mul in H; [|apply prime_alt; assumption].
  destruct H; assumption.
Qed.

Lemma opp_mod_of_one (a : Z) : a mod p = 1 -> (- a) mod p = p - 1.
Proof.
  pose proof p_ge_3 as Hp3. intros Ha.
  replace (- a) with (0 - a) by lia.
  rewrite Zminus_mod, Ha, Z.mod_0_l by lia.
  replace (0 - 1) with (-1 * p + (p - 1)) by lia.
  rewrite Z.add_comm, Z.mod_add by lia.
  apply Z.mod_small. lia.
Qed.

(** [-1] is not a square modulo [p]: a sum of two squares vanishes modulo
    [p] only when both squares do. *)
Lemma sum_of_squares_mod (x y : Z) :
  (x * x + y * y) mod p = 0 -> y mod p = 0.
Proof.
  pose proof p_ge_3 as Hp3. intros Hsum.
  destruct (Z.eq_dec (y mod p) 0) as [|Hy]; [assumption|exfalso].
  assert (Hx : x mod p <> 0).
  { intros Hx0. apply Hy. apply prime_divides_square.
    rewrite <- Hsum. rewrite (Zplus_mod (x * x)).
    rewrite (Zmult_mod x x), Hx0. cbn [Z.mul].
    rewrite Z.mod_0_l by lia. cbn [Z.add].
    rewrite Z.mod_mod by lia. reflexivity. }
  assert (Hzp : Z.prime p) by (apply prime_alt; assumption).
  pose proof (ZmodInv.Z.fermat_nz p x Hzp Hx) as Fx.
  pose proof (ZmodInv.Z.fermat_nz p y Hzp Hy) as Fy.
  set (k := 2 * (p / 4) + 1).
  assert (Hk : p - 1 = 2 * k).
  { pose proof (Z.div_mod p 4 ltac:(lia)). subst k. lia. }
  assert (Hk0 : 0 <= k).
  { pose proof (Z.div_pos p 4 ltac:(lia) ltac:(lia)). subst k. lia. }
  assert (Hodd : Z.Odd k) by (exists (p / 4); reflexivity).
  assert (Hxx : (x * x) mod p = (- (y * y)) mod p).
  { replace (x * x) with ((x * x + y * y) + - (y * y)) by lia.
    rewrite Zplus_mod, Hsum. cbn [Z.add].
    rewrite Z.mod_mod by lia. reflexivity. }
  rewrite Hk, Z.pow_mul_r, Z.pow_2_r in Fx, Fy by lia.
  rewrite <- Z.mod_pow_l, Hxx, Z.mod_pow_l in Fx.
  rewrite Z.pow_opp_odd in Fx by assumption.
  rewrite (opp_mod_of_one _ Fy) in Fx.
  lia.
Qed.

End QuadraticResidues.

(** ** Finite ranges of integers *)

Lemma In_zrange (n x : Z) : In x (zrange n) <-> 0 <= x < n.
Proof.
  unfold zrange. rewrite in_map_iff. split.
  - intros (k & <- & Hk). apply in_seq in Hk. lia.
  - intros Hx. exists (Z.to_nat x). split; [lia|]. apply in_seq. lia.
Qed.

Lemma NoDup_zrange (n : Z) : NoDup (zrange n).
Proof.
  unfold zrange. apply NoDup_map_NoDup_ForallPairs; [|apply seq_NoDup].
  intros a b _ _ H. lia.
Qed.

Lemma length_zrange (n : Z) : length (zrange n) = Z.to_nat n.
Proof. unfold zrange. rewrite length_map, length_seq. reflexivity. Qed.

(** An injection of [[0, n)] into itself is onto. *)
Lemma injective_on_range_surjective (f : Z -> Z) (n : Z) :
  (forall x, 0 <= x < n -> 0 <= f x < n) ->
  (forall x y, 0 <= x < n -> 0 <= y < n -> f x = f y -> x = y) ->
  forall y, 0 <= y < n -> exists x, 0 <= x < n /\ f x = y.
Proof.
  intros Hrange Hinj y Hy.
  assert (Hnodup : NoDup (map f (zrange n))).
  { apply NoDup_map_NoDup_ForallPairs; [|apply NoDup_zrange].
    intros a b Ha Hb. apply Hinj; apply In_zrange; assumption. }
  assert (Hincl : incl (map f (zrange n)) (zrange n)).
  { intros z Hz. apply in_map_iff in Hz. destruct Hz as (x & <- & Hx).
    apply In_zrange, Hrange, In_zrange, Hx. }
  assert (Hback : incl (zrange n) (map f (zrange n))).
  { apply NoDup_length_incl; [assumption | | assumption].
    rewrite length_map. apply Nat.le_refl. }
  assert (Hin : In y (map f (zrange n))) by (apply Hback, In_zrange, Hy).
  apply in_map_iff in Hin. destruct Hin as (x & Hfx & Hx).
  exists x. split; [apply In_zrange, Hx | assumption].
Qed.

(** ** The permutation [permuteQPR] *)

Section Permutation.

Variable p : Z.
Hypothesis p_prime : prime p.
Hypothesis p_mod4 : p mod 4 = 3.
Hypothesis p_uint : p < 2 ^ 32.

Lemma half_odd : p = 2 * (p / 2) + 1.
Proof.
  pose proof (Z.div_mod p 2 ltac:(lia)) as H2.
  pose proof (Z.div_mod p 4 ltac:(lia)) as H4.
  pose proof (Z.mod_pos_bound p 2 ltac:(lia)).
  destruct (Z.eq_dec (p mod 2) 0) as [H0|]; [exfalso|lia].
  lia.
Qed.

(** On [[0, p)] no 32-bit or 64-bit operation of [permuteQPR] wraps. *)
Lemma permuteQPR_unfold (x : Z) :
  0 <= x < p ->
  permuteQPR p x =
  if x <=? p / 2 then (x * x) mod p else p - (x * x) mod p.
Proof.
  pose proof (p_ge_3 p p_prime p_mod4) as Hp3. intros Hx. unfold permuteQPR.
  destruct (Z.geb_spec x p) as [|_]; [lia|].
  assert (Hsq : 0 <= x * x < 2 ^ 64) by nia.
  rewrite (u64_small _ Hsq).
  pose proof (Z.mod_pos_bound (x * x) p ltac:(lia)) as Hres.
  rewrite (u32_small ((x * x) mod p)) by lia.
  destruct (x <=? p / 2); [reflexivity|].
  apply u32_small. lia.
Qed.

Lemma residue_nonzero (x : Z) : 0 < x < p -> (x * x) mod p <> 0.
Proof.
  intros Hx H0. apply (prime_divides_square p p_prime p_mod4) in H0.
  rewrite Z.mod_small in H0 by lia. lia.
Qed.

Lemma permuteQPR_range (x : Z) : 0 <= x < p -> 0 <= permuteQPR p x < p.
Proof.
  pose proof (p_ge_3 p p_prime p_mod4) as Hp3. intros Hx.
  rewrite permuteQPR_unfold by assumption.
  pose proof (Z.mod_pos_bound (x * x) p ltac:(lia)) as Hres.
  destruct (Z.leb_spec x (p / 2)) as [Hle|Hgt]; [assumption|].
  pose proof half_odd.
  pose proof (residue_nonzero x ltac:(lia)). lia.
Qed.

Lemma small_multiple (d : Z) : (p | d) -> - p < d < p -> d = 0.
Proof.
  pose proof (p_ge_3 p p_prime p_mod4) as Hp3. intros [k ->] Hd.
  assert (-1 < k < 1) by nia. nia.
Qed.

Lemma same_square (x y : Z) :
  (x * x) mod p = (y * y) mod p -> (p | x - y) \/ (p | x + y).
Proof.
  pose proof (p_ge_3 p p_prime p_mod4) as Hp3. intros Heq.
  apply Z.divide_prime_mul; [apply prime_alt; assumption|].
  apply Z.mod_divide; [lia|].
  replace ((x - y) * (x + y)) with (x * x - y * y) by lia.
  rewrite Zminus_mod, Heq, Z.sub_diag. apply Z.mod_0_l. lia.
Qed.

Lemma permuteQPR_inj (x y : Z) :
  0 <= x < p -> 0 <= y < p -> permuteQPR p x = permuteQPR p y -> x = y.
Proof.
  pose proof (p_ge_3 p p_prime p_mod4) as Hp3.
  pose proof half_odd as Hhalf. intros Hx Hy.
  rewrite !permuteQPR_unfold by assumption.
  pose proof (Z.mod_pos_bound (x * x) p ltac:(lia)) as Hrx.
  pose proof (Z.mod_pos_bound (y * y) p ltac:(lia)) as Hry.
  destruct (Z.leb_spec x (p / 2)) as [Hxl|Hxg];
    destruct (Z.leb_spec y (p / 2)) as [Hyl|Hyg]; intros Heq.
  - destruct (same_square x y Heq) as [Hd|Hd];
      apply small_multiple in Hd; lia.
  - exfalso.
    assert (Hsum : (x * x + y * y) mod p = 0).
    { rewrite Zplus_mod, Heq.
      replace (p - (y * y) mod p + (y * y) mod p) with (1 * p) by lia.
      apply Z.mod_mul. lia. }
    apply (sum_of_squares_mod p p_prime p_mod4) in Hsum.
    rewrite Z.mod_small in Hsum by lia. lia.
  - exfalso.
    assert (Hsum : (y * y + x * x) mod p = 0).
    { rewrite Zplus_mod.
      replace ((y * y) mod p + (x * x) mod p) with (1 * p) by lia.
      apply Z.mod_mul. lia. }
    apply (sum_of_squares_mod p p_prime p_mod4) in Hsum.
    rewrite Z.mod_small in Hsum by lia. lia.
  - assert (Heq' : (x * x) mod p = (y * y) mod p) by lia.
    destruct (same_square x y Heq') as [Hd|[k Hk]].
    + apply small_multiple in Hd; lia.
    + exfalso. assert (k = 1) by nia. lia.
Qed.

Lemma permuteQPR_surj (y : Z) :
  0 <= y < p -> exists x, 0 <= x < p /\ permuteQPR p x = y.
Proof.
  apply injective_on_range_surjective.
  - apply permuteQPR_range.
  - apply permuteQPR_inj.
Qed.

Lemma permuteQPR_bijective : bijection_below p (permuteQPR p).
Proof.
  split; [apply permuteQPR_range|].
  split; [apply permuteQPR_inj | apply permuteQPR_surj].
Qed.

Lemma permuteQPR_0 : permuteQPR p 0 = 0.
Proof.
  pose proof (p_ge_3 p p_prime p_mod4) as Hp3. rewrite permuteQPR_unfold by lia.
  pose proof (Z.div_pos p 2 ltac:(lia) ltac:(lia)).
  destruct (Z.leb_spec 0 (p / 2)); [|lia].
  apply Z.mod_0_l. lia.
Qed.

End Permutation.

(** ** The constructor *)

Lemma suitable_ge_3 (p : Z) : suitable p -> 3 <= p.
Proof. intros [Hp Hm]. apply p_ge_3; assumption. Qed.

Lemma permuteQPR_uint (p x : Z) :
  suitable p -> p < 2 ^ 32 -> 0 <= x < 2 ^ 32 ->
  0 <= permuteQPR p x < 2 ^ 32.
Proof.
  intros [Hp Hm] Hp32 Hx.
  destruct (Z_lt_ge_dec x p) as [Hlt|Hge].
  - pose proof (permuteQPR_range p Hp Hm Hp32 x ltac:(lia)). lia.
  - unfold permuteQPR. destruct (Z.geb_spec x p); [assumption | lia].
Qed.

Lemma UniqueSeq_ctor_spec (range seed : Z) :
  exists g,
    UniqueSeq_ctor range seed = Some g /\
    valid g /\
    m_range g = u32 range /\
    selected_prime (u32 range) (m_prime g) /\
    m_index g =
      permuteQPR (m_prime g)
        (u32 (u32 (permuteQPR (m_prime g) (u32 seed) + u32 (2 * m_prime g))
              - u32 range)) /\
    m_intermediateOffset g = u32 (m_prime g - u32 range).
Proof.
  unfold UniqueSeq_ctor, selected_prime.
  pose proof (u32_range range) as Hr. pose proof (u32_range seed) as Hs.
  destruct (Z.gtb_spec (u32 range) 4294967291) as [Hcap|Hlow].
  - eexists. split; [reflexivity|].
    cbn [m_range m_prime m_index m_intermediateOffset].
    split; [|split; [reflexivity|]; split; [reflexivity|];
             split; reflexivity].
    constructor; cbn [m_range m_prime m_index].
    + apply largest_prime32_suitable.
    + apply Z.le_refl.
    + assumption.
    + apply permuteQPR_uint;
        [apply largest_prime32_suitable | reflexivity | apply u32_range].
  - destruct (get_next_suitable_prime_spec (u32 range))
      as (q & Hq & Hqb & Hleast & Hprobe); [unfold largest_prime32; lia|].
    rewrite Hq. cbn [option_map].
    assert (Hq3 : 3 <= q) by (apply suitable_ge_3, Hleast).
    assert (Hqu : u32 q = q).
    { apply u32_small. unfold largest_prime32 in Hqb. lia. }
    rewrite Hqu.
    eexists. split; [reflexivity|].
    cbn [m_range m_prime m_index m_intermediateOffset].
    split; [|split; [reflexivity|]; split; [split; assumption|];
             split; reflexivity].
    constructor; cbn [m_range m_prime m_index].
    + apply Hleast.
    + assumption.
    + assumption.
    + apply permuteQPR_uint;
        [apply Hleast | unfold largest_prime32 in Hqb; lia | apply u32_range].
Qed.

(** ** The loop of [next()] *)

Lemma iter_advance_fields (k : nat) (g : UniqueSeq) :
  m_prime (Nat.iter k advance g) = m_prime g /\
  m_range (Nat.iter k advance g) = m_range g /\
  m_intermediateOffset (Nat.iter k advance g) = m_intermediateOffset g.
Proof.
  induction k as [|k IH]; [repeat split|].
  cbn [Nat.iter].
  change (m_prime (advance (Nat.iter k advance g)))
    with (m_prime (Nat.iter k advance g)).
  change (m_range (advance (Nat.iter k advance g)))
    with (m_range (Nat.iter k advance g)).
  change (m_intermediateOffset (advance (Nat.iter k advance g)))
    with (m_intermediateOffset (Nat.iter k advance g)).
  exact IH.
Qed.

Lemma rounds_trace (g : UniqueSeq) (n : nat) (res : Z) (g' : UniqueSeq) :
  rounds g n res g' <->
  (forall k, (k < n)%nat -> candidate (Nat.iter k advance g) > m_range g) /\
  candidate (Nat.iter n advance g) <= m_range g /\
  res = candidate (Nat.iter n advance g) /\
  g' = Nat.iter (Datatypes.S n) advance g.
Proof.
  split.
  - induction 1 as [g Hacc | g n res g' Hrej _ IH].
    + split; [intros k Hk; lia|]. repeat split. assumption.
    + destruct IH as (Hall & Hlast & Hres & Hg').
      change (m_range (advance g)) with (m_range g) in *.
      rewrite <- !Nat.iter_succ_r in *.
      split; [|repeat split; assumption].
      intros [|k] Hk; [exact Hrej|].
      rewrite Nat.iter_succ_r. apply Hall. lia.
  - revert g. induction n as [|n IH]; intros g (Hall & Hlast & -> & ->).
    + apply rounds_accept. exact Hlast.
    + apply rounds_reject; [apply (Hall 0%nat); lia|].
      apply IH. change (m_range (advance g)) with (m_range g).
      rewrite <- !Nat.iter_succ_r.
      split; [|repeat split; assumption].
      intros k Hk. rewrite <- Nat.iter_succ_r. apply Hall. lia.
Qed.

Lemma loop_of_rounds (g : UniqueSeq) (n : nat) (res : Z) (g' : UniqueSeq) :
  m_prime g <> 0 -> rounds g n res g' ->
  loop_nat next_step (Datatypes.S n) g = inr (Returned res g').
Proof.
  intros Hp H. induction H as [g Hacc | g n res g' Hrej _ IH];
    rewrite loop_nat_S; unfold next_step at 1.
  - destruct (Z.eqb_spec (m_prime g) 0); [contradiction|].
    destruct (Z.gtb_spec (candidate g) (m_range g)); [lia | reflexivity].
  - destruct (Z.eqb_spec (m_prime g) 0); [contradiction|].
    destruct (Z.gtb_spec (candidate g) (m_range g)); [|lia].
    apply IH. exact Hp.
Qed.

Lemma rounds_of_loop (fuel : nat) (g : UniqueSeq) (res : Z) (g' : UniqueSeq) :
  loop_nat next_step fuel g = inr (Returned res g') ->
  m_prime g <> 0 /\ exists n, (n < fuel)%nat /\ rounds g n res g'.
Proof.
  revert g. induction fuel as [|fuel IH]; intros g; [discriminate|].
  rewrite loop_nat_S. unfold next_step at 1.
  destruct (Z.eqb_spec (m_prime g) 0) as [|Hp]; [discriminate|].
  destruct (Z.gtb_spec (candidate g) (m_range g)) as [Hrej|Hacc].
  - intros H. apply IH in H. destruct H as (_ & n & Hn & Hr).
    split; [exact Hp|]. exists (Datatypes.S n). split; [lia|].
    apply rounds_reject; [lia | exact Hr].
  - intros H. injection H as <- <-.
    split; [exact Hp|]. exists 0%nat. split; [lia|].
    apply rounds_accept. exact Hacc.
Qed.

Lemma next_fuel : Z.of_nat (Pos.to_nat (2 ^ 32)) = 2 ^ 32.
Proof. rewrite positive_nat_Z. reflexivity. Qed.

Lemma next_rounds (g : UniqueSeq) (res : Z) (g' : UniqueSeq) :
  next g = Returned res g' <->
  m_prime g <> 0 /\ exists n, Z.of_nat n < 2 ^ 32 /\ rounds g n res g'.
Proof.
  unfold next. rewrite loop_pos_nat. split.
  - destruct (loop_nat next_step (Pos.to_nat (2 ^ 32)) g) as [|o] eqn:Hloop;
      [discriminate|].
    intros ->. apply rounds_of_loop in Hloop.
    destruct Hloop as (Hp & n & Hn & Hr).
    split; [exact Hp|]. exists n. split; [|exact Hr].
    rewrite <- next_fuel. lia.
  - intros (Hp & n & Hn & Hr).
    rewrite (loop_nat_done_mono next_step (Datatypes.S n) _ g
               (Returned res g')); [reflexivity | | ].
    + rewrite <- next_fuel in Hn. lia.
    + apply loop_of_rounds; assumption.
Qed.

(** ** Valid states and termination of [next()] *)

Lemma valid_prime_bounds (g : UniqueSeq) :
  valid g -> 3 <= m_prime g < 2 ^ 32.
Proof.
  intros Hv. pose proof (suitable_ge_3 _ (valid_prime g Hv)).
  pose proof (valid_prime_uint g Hv) as Hu. unfold largest_prime32 in Hu.
  lia.
Qed.

Lemma advance_index (g : UniqueSeq) :
  valid g -> 0 <= m_index (advance g) < m_prime g.
Proof.
  intros Hv. pose proof (valid_prime_bounds g Hv).
  unfold advance. cbn [set_index m_index].
  apply Z.mod_pos_bound. lia.
Qed.

Lemma advance_valid (g : UniqueSeq) : valid g -> valid (advance g).
Proof.
  intros Hv. pose proof (valid_prime_bounds g Hv).
  pose proof (advance_index g Hv).
  constructor; try apply Hv. lia.
Qed.

Lemma candidate_bounds (g : UniqueSeq) :
  valid g -> 0 <= candidate g < 2 ^ 32.
Proof.
  intros Hv. pose proof (valid_prime_bounds g Hv). unfold candidate.
  apply permuteQPR_uint; [apply Hv | lia |].
  apply permuteQPR_uint; [apply Hv | lia | apply Hv].
Qed.

Lemma candidate_below_prime (g : UniqueSeq) :
  valid g -> m_index g < m_prime g -> 0 <= candidate g < m_prime g.
Proof.
  intros Hv Hi. pose proof (valid_prime_bounds g Hv).
  destruct (valid_prime g Hv) as [Hp Hm]. unfold candidate.
  apply permuteQPR_range; [assumption | assumption | lia |].
  apply permuteQPR_range; [assumption | assumption | lia |].
  pose proof (valid_index g Hv). lia.
Qed.

Lemma candidate_small_index (g : UniqueSeq) :
  valid g -> 0 <= m_index g <= 1 -> candidate g = m_index g.
Proof.
  intros Hv Hi. pose proof (valid_prime_bounds g Hv) as Hb.
  destruct (valid_prime g Hv) as [Hp Hm]. unfold candidate.
  assert (H1 : permuteQPR (m_prime g) (m_index g) = m_index g).
  { rewrite permuteQPR_unfold by (assumption || lia).
    assert (1 <= m_prime g / 2) by (apply Z.div_le_lower_bound; lia).
    destruct (Z.leb_spec (m_index g) (m_prime g / 2)); [|lia].
    assert (m_index g = 0 \/ m_index g = 1) as [->| ->] by lia.
    - apply Z.mod_0_l. lia.
    - apply Z.mod_small. lia. }
  rewrite !H1. reflexivity.
Qed.

Lemma rounds_fields (g : UniqueSeq) (n : nat) (res : Z) (g' : UniqueSeq) :
  rounds g n res g' ->
  m_prime g' = m_prime g /\ m_range g' = m_range g /\
  m_intermediateOffset g' = m_intermediateOffset g.
Proof.
  intros H. apply rounds_trace in H. destruct H as (_ & _ & _ & ->).
  apply iter_advance_fields.
Qed.

Lemma rounds_valid (g : UniqueSeq) (n : nat) (res : Z) (g' : UniqueSeq) :
  valid g -> rounds g n res g' ->
  valid g' /\ m_index g' < m_prime g' /\ 0 <= res <= m_range g.
Proof.
  intros Hv H. induction H as [g Hacc | g n res g' Hrej _ IH].
  - split; [apply advance_valid, Hv|].
    pose proof (advance_index g Hv).
    change (m_prime (advance g)) with (m_prime g).
    pose proof (candidate_bounds g Hv). lia.
  - change (m_range g) with (m_range (advance g)).
    apply IH. apply advance_valid, Hv.
Qed.

(** From an index below the prime the walk reaches index 0, whose candidate
    is 0, after at most [m_prime - m_index] rejected rounds; at indices 0
    and 1 the candidate is the index itself. *)
Lemma walk (m : nat) (g : UniqueSeq) :
  valid g -> 1 <= m_range g -> m_index g < m_prime g ->
  m_prime g - m_index g <= Z.of_nat m ->
  exists n res g',
    rounds g n res g' /\
    Z.of_nat n <= m_prime g - m_index g /\
    (m_index g <= 1 -> n = 0%nat).
Proof.
  revert g. induction m as [|m IH]; intros g Hv Hr Hi Hm; [lia|].
  pose proof (valid_prime_bounds g Hv) as Hb.
  pose proof (valid_index g Hv) as Hi0.
  destruct (Z_le_gt_dec (candidate g) (m_range g)) as [Hacc|Hrej].
  - exists 0%nat, (candidate g), (advance g).
    split; [apply rounds_accept, Hacc|]. split; [lia | reflexivity].
  - assert (Hi2 : 2 <= m_index g).
    { destruct (Z_le_gt_dec (m_index g) 1) as [Hle|]; [|lia].
      rewrite candidate_small_index in Hrej by (assumption || lia). lia. }
    assert (Hadv : m_index (advance g) = (m_index g + 1) mod m_prime g).
    { unfold advance. cbn [set_index m_index].
      rewrite u32_small by lia. reflexivity. }
    destruct (Z.eq_dec (m_index g + 1) (m_prime g)) as [Hend|Hmid].
    + rewrite Hend, Z.mod_same in Hadv by lia.
      exists 1%nat, (candidate (advance g)), (advance (advance g)).
      split; [|split; lia].
      apply rounds_reject; [assumption|]. apply rounds_accept.
      rewrite candidate_small_index by (try apply advance_valid; try lia;
        assumption).
      change (m_range (advance g)) with (m_range g). lia.
    + rewrite Z.mod_small in Hadv by lia.
      destruct (IH (advance g)) as (n & res & g' & Hrounds & Hn & _).
      * apply advance_valid, Hv.
      * exact Hr.
      * change (m_prime (advance g)) with (m_prime g). lia.
      * change (m_prime (advance g)) with (m_prime g). lia.
      * change (m_prime (advance g)) with (m_prime g) in Hn.
        exists (Datatypes.S n), res, g'.
        split; [apply rounds_reject; assumption|]. split; lia.
Qed.

(** Every call of [next()] on a valid state with a range of at least 1
    returns after at most [m_prime] rounds. *)
Lemma next_terminates (g : UniqueSeq) :
  valid g -> 1 <= m_range g ->
  exists n res g',
    rounds g n res g' /\ Z.of_nat n + 1 <= m_prime g /\
    next g = Returned res g'.
Proof.
  intros Hv Hr. pose proof (valid_prime_bounds g Hv) as Hb.
  assert (Hwrap : forall n res g',
    rounds g n res g' -> Z.of_nat n + 1 <= m_prime g ->
    exists n res g',
      rounds g n res g' /\ Z.of_nat n + 1 <= m_prime g /\
      next g = Returned res g').
  { intros n res g' Hrounds Hn. exists n, res, g'.
    split; [assumption|]. split; [assumption|].
    apply next_rounds. split; [lia|]. exists n. split; [lia | assumption]. }
  destruct (Z_le_gt_dec (candidate g) (m_range g)) as [Hacc|Hrej].
  - apply (Hwrap 0%nat (candidate g) (advance g));
      [apply rounds_accept, Hacc | lia].
  - pose proof (advance_index g Hv) as Hj.
    destruct (walk (Z.to_nat (m_prime g)) (advance g))
      as (n & res & g' & Hrounds & Hn & Hsmall).
    + apply advance_valid, Hv.
    + exact Hr.
    + change (m_prime (advance g)) with (m_prime g). lia.
    + change (m_prime (advance g)) with (m_prime g). lia.
    + change (m_prime (advance g)) with (m_prime g) in Hn.
      apply (Hwrap (Datatypes.S n) res g');
        [apply rounds_reject; assumption|].
      destruct (Z_le_gt_dec (m_index (advance g)) 1) as [Hle|Hgt].
      * rewrite (Hsmall Hle). lia.
      * lia.
Qed.

(** ** Sequences of calls *)

Lemma next_valid (g : UniqueSeq) (res : Z) (g' : UniqueSeq) :
  valid g -> next g = Returned res g' ->
  valid g' /\ m_index g' < m_prime g' /\ 0 <= res <= m_range g /\
  m_prime g' = m_prime g /\ m_range g' = m_range g /\
  m_intermediateOffset g' = m_intermediateOffset g.
Proof.
  intros Hv H. apply next_rounds in H. destruct H as (_ & n & _ & Hr).
  destruct (rounds_valid g n res g' Hv Hr) as (Hv' & Hi & Hres).
  destruct (rounds_fields g n res g' Hr) as (Hp & Hrg & Ho).
  split; [assumption|]. split; [assumption|]. split; [assumption|].
  split; [assumption|]. split; assumption.
Qed.

Lemma next_below_prime (g : UniqueSeq) (res : Z) (g' : UniqueSeq) :
  valid g -> m_index g < m_prime g -> next g = Returned res g' ->
  res < m_prime g.
Proof.
  intros Hv Hi H. apply next_rounds in H. destruct H as (_ & n & _ & Hr).
  clear - Hv Hi Hr. induction Hr as [g Hacc | g n res g' Hrej _ IH].
  - apply candidate_below_prime; assumption.
  - change (m_prime g) with (m_prime (advance g)). apply IH.
    + apply advance_valid, Hv.
    + change (m_prime (advance g)) with (m_prime g).
      apply advance_index, Hv.
Qed.

Lemma run_next_S (n : nat) (g : UniqueSeq) :
  run_next (Datatypes.S n) g =
  match next g with
  | Returned res g' =>
      match run_next n g' with
      | Some (rest, g'') => Some (res :: rest, g'')
      | None => None
      end
  | _ => None
  end.
Proof. reflexivity. Qed.

Lemma run_next_total (n : nat) (g : UniqueSeq) :
  valid g -> 1 <= m_range g ->
  exists outs g',
    run_next n g = Some (outs, g') /\ length outs = n /\
    valid g' /\ m_prime g' = m_prime g /\ m_range g' = m_range g /\
    Forall (fun v => 0 <= v <= m_range g) outs /\
    Forall (fun v => v < m_prime g) (tl outs) /\
    (m_index g < m_prime g -> Forall (fun v => v < m_prime g) outs).
Proof.
  revert g. induction n as [|n IH]; intros g Hv Hr.
  - exists [], g. split; [reflexivity|]. split; [reflexivity|].
    split; [assumption|]. split; [reflexivity|]. split; [reflexivity|].
    split; [constructor|]. split; [constructor|]. intros _. constructor.
  - destruct (next_terminates g Hv Hr) as (k & res & g1 & _ & _ & Hnext).
    destruct (next_valid g res g1 Hv Hnext)
      as (Hv1 & Hi1 & Hres & Hp1 & Hr1 & _).
    destruct (IH g1 Hv1 ltac:(lia))
      as (rest & g2 & Hrun & Hlen & Hv2 & Hp2 & Hr2 & Hall & _ & Hlow).
    exists (res :: rest), g2. rewrite run_next_S, Hnext, Hrun.
    rewrite Hp1 in *. rewrite Hr1 in *.
    split; [reflexivity|]. split; [cbn [length]; lia|].
    split; [assumption|]. split; [assumption|]. split; [assumption|].
    split; [constructor; assumption|].
    split; [cbn [tl]; apply Hlow; assumption|].
    intros Hi. constructor; [|apply Hlow; assumption].
    apply (next_below_prime g res g1 Hv Hi Hnext).
Qed.

Lemma reachable_valid (range seed : Z) (g : UniqueSeq) :
  reachable range seed g ->
  valid g /\ m_range g = u32 range /\ selected_prime (u32 range) (m_prime g).
Proof.
  induction 1 as [g Hctor | g res g' _ IH Hnext].
  - destruct (UniqueSeq_ctor_spec range seed)
      as (g0 & Hg0 & Hv & Hr & Hsel & _).
    assert (g0 = g) by congruence. subst g0.
    split; [assumption|]. split; assumption.
  - destruct IH as (Hv & Hr & Hsel).
    destruct (next_valid g res g' Hv Hnext) as (Hv' & _ & _ & Hp & Hr' & _).
    split; [assumption|]. rewrite Hp, Hr'. split; assumption.
Qed.

(** Throughout the life of a generator the prime, the range and the offset
    keep the values the constructor gave them. *)
Lemma reachable_fields (range seed : Z) (g0 g : UniqueSeq) :
  UniqueSeq_ctor range seed = Some g0 -> reachable range seed g ->
  m_prime g = m_prime g0 /\ m_range g = m_range g0 /\
  m_intermediateOffset g = m_intermediateOffset g0.
Proof.
  intros Hctor Hreach.
  induction Hreach as [g Hg | g res g' Hreach IH Hnext].
  - assert (g = g0) by congruence. subst g. repeat split.
  - destruct (reachable_valid range seed g Hreach) as (Hv & _).
    destruct (next_valid g res g' Hv Hnext) as (_ & _ & _ & Hp & Hr & Ho).
    destruct IH as (IHp & IHr & IHo).
    rewrite Hp, Hr, Ho. split; [assumption|]. split; assumption.
Qed.

Lemma loop_nat_offset (fuel : nat) (g : UniqueSeq) (o : Z) :
  loop_nat next_step fuel (set_intermediateOffset g o) =
  match loop_nat next_step fuel g with
  | inl g' => inl (set_intermediateOffset g' o)
  | inr (Returned res g') => inr (Returned res (set_intermediateOffset g' o))
  | inr DivisionByZero => inr DivisionByZero
  | inr Diverged => inr Diverged
  end.
Proof.
  revert g. induction fuel as [|fuel IH]; intros g; [reflexivity|].
  rewrite !loop_nat_S. unfold next_step at 1 3.
  change (m_prime (set_intermediateOffset g o)) with (m_prime g).
  change (m_range (set_intermediateOffset g o)) with (m_range g).
  change (candidate (set_intermediateOffset g o)) with (candidate g).
  change (advance (set_intermediateOffset g o))
    with (set_intermediateOffset (advance g) o).
  destruct (m_prime g =? 0); [reflexivity|].
  destruct (candidate g >? m_range g); [apply IH | reflexivity].
Qed.

(** ** One full period *)

Lemma next_accept (g : UniqueSeq) :
  m_prime g <> 0 -> candidate g <= m_range g ->
  next g = Returned (candidate g) (advance g).
Proof.
  intros Hp Hacc. apply next_rounds. split; [exact Hp|].
  exists 0%nat. split; [reflexivity | apply rounds_accept, Hacc].
Qed.

Lemma next_reject (g : UniqueSeq) :
  valid g -> 1 <= m_range g -> candidate g > m_range g ->
  next g = next (advance g).
Proof.
  intros Hv Hr Hrej. pose proof (valid_prime_bounds g Hv) as Hb.
  destruct (next_terminates (advance g) (advance_valid g Hv) Hr)
    as (n & res & g' & Hrounds & Hn & Hnext).
  change (m_prime (advance g)) with (m_prime g) in Hn.
  rewrite Hnext. apply next_rounds. split; [lia|].
  exists (Datatypes.S n). split; [lia|].
  apply rounds_reject; assumption.
Qed.

Lemma outputs_reject (k : nat) (g : UniqueSeq) :
  valid g -> 1 <= m_range g -> candidate g > m_range g ->
  outputs k g = outputs k (advance g).
Proof.
  intros Hv Hr Hrej. destruct k as [|k]; [reflexivity|].
  unfold outputs. rewrite !run_next_S, (next_reject g Hv Hr Hrej).
  reflexivity.
Qed.

Lemma outputs_accepted (n : nat) (g : UniqueSeq) :
  valid g -> 1 <= m_range g ->
  outputs (length (accepted n g)) g = Some (accepted n g).
Proof.
  revert g. induction n as [|n IH]; intros g Hv Hr; [reflexivity|].
  pose proof (valid_prime_bounds g Hv) as Hb.
  specialize (IH (advance g) (advance_valid g Hv) Hr).
  unfold accepted in *. cbn [iterates map filter].
  change (m_range (advance g)) with (m_range g) in IH.
  destruct (Z.leb_spec (candidate g) (m_range g)) as [Hacc|Hrej].
  - cbn [length]. unfold outputs in *.
    rewrite run_next_S, next_accept by (assumption || lia).
    destruct (run_next _ (advance g)) as [[rest g'']|]; [|discriminate].
    cbn [option_map fst] in *. congruence.
  - rewrite outputs_reject by (assumption || lia). exact IH.
Qed.

Lemma iterates_candidates (n : nat) (g : UniqueSeq) :
  map candidate (iterates n g) =
  map (fun i => permuteQPR (m_prime g) (permuteQPR (m_prime g) i))
      (map m_index (iterates n g)).
Proof.
  revert g. induction n as [|n IH]; intros g; [reflexivity|].
  cbn [iterates map]. rewrite IH. reflexivity.
Qed.

Lemma iterates_index (n : nat) (g : UniqueSeq) :
  valid g -> m_index g < m_prime g ->
  map m_index (iterates n g) =
  map (fun k => (m_index g + Z.of_nat k) mod m_prime g) (seq 0 n).
Proof.
  revert g. induction n as [|n IH]; intros g Hv Hi; [reflexivity|].
  pose proof (valid_prime_bounds g Hv) as Hb.
  pose proof (valid_index g Hv) as Hi0.
  cbn [iterates map seq].
  rewrite IH; [|apply advance_valid, Hv | apply (advance_index g Hv)].
  f_equal.
  - rewrite Z.add_0_r, Z.mod_small by lia. reflexivity.
  - rewrite <- seq_shift, map_map. apply map_ext. intros k.
    change (m_prime (advance g)) with (m_prime g).
    unfold advance. cbn [set_index m_index].
    rewrite u32_small by lia.
    rewrite Zplus_mod_idemp_l. f_equal. lia.
Qed.

Lemma shift_bijection (p j : Z) :
  0 < p -> bijection_below p (fun x => (j + x) mod p).
Proof.
  intros Hp.
  assert (Hrange : forall x, 0 <= x < p -> 0 <= (j + x) mod p < p).
  { intros x _. apply Z.mod_pos_bound. lia. }
  assert (Hinj : forall x y, 0 <= x < p -> 0 <= y < p ->
            (j + x) mod p = (j + y) mod p -> x = y).
  { intros x y Hx Hy Heq.
    assert (Hd : (p | x - y)).
    { apply Z.mod_divide; [lia|].
      replace (x - y) with ((j + x) - (j + y)) by lia.
      rewrite Zminus_mod, Heq, Z.sub_diag. apply Z.mod_0_l. lia. }
    destruct Hd as [k Hk]. assert (-1 < k < 1) by nia. nia. }
  split; [exact Hrange|]. split; [exact Hinj|].
  apply injective_on_range_surjective; assumption.
Qed.

Lemma bijection_below_compose (n : Z) (f h : Z -> Z) :
  bijection_below n f -> bijection_below n h ->
  bijection_below n (fun x => h (f x)).
Proof.
  intros (Hfr & Hfi & Hfs) (Hhr & Hhi & Hhs). split; [|split].
  - intros x Hx. apply Hhr, Hfr, Hx.
  - intros x y Hx Hy Heq. apply Hfi; [assumption | assumption|].
    apply Hhi; [apply Hfr, Hx | apply Hfr, Hy | exact Heq].
  - intros z Hz. destruct (Hhs z Hz) as (y & Hy & Hhy).
    destruct (Hfs y Hy) as (x & Hx & Hfx).
    exists x. split; [assumption|]. rewrite Hfx. exact Hhy.
Qed.

Lemma bijection_below_map (n : Z) (f : Z -> Z) :
  bijection_below n f ->
  NoDup (map f (zrange n)) /\
  forall v, In v (map f (zrange n)) <-> 0 <= v < n.
Proof.
  intros (Hr & Hi & Hs). split.
  - apply NoDup_map_NoDup_ForallPairs; [|apply NoDup_zrange].
    intros a b Ha Hb. apply Hi; apply In_zrange; assumption.
  - intros v. rewrite in_map_iff. split.
    + intros (x & <- & Hx). apply Hr, In_zrange, Hx.
    + intros Hv. destruct (Hs v Hv) as (x & Hx & Hfx).
      exists x. split; [assumption | apply In_zrange, Hx].
Qed.

Lemma same_elements_length (l1 l2 : list Z) :
  NoDup l1 -> NoDup l2 -> (forall x, In x l1 <-> In x l2) ->
  length l1 = length l2.
Proof.
  intros H1 H2 Hiff. apply Nat.le_antisymm.
  - apply NoDup_incl_length; [assumption|]. intros x Hx. apply Hiff, Hx.
  - apply NoDup_incl_length; [assumption|]. intros x Hx. apply Hiff, Hx.
Qed.

(** From an index below the prime, the candidates accepted during [m_prime]
    successive rounds are the integers of [[0, m_range]], each once. *)
Lemma accepted_full_period (g : UniqueSeq) :
  valid g -> 0 <= m_range g < m_prime g -> m_index g < m_prime g ->
  NoDup (accepted (Z.to_nat (m_prime g)) g) /\
  (forall v, In v (accepted (Z.to_nat (m_prime g)) g) <->
             0 <= v <= m_range g) /\
  length (accepted (Z.to_nat (m_prime g)) g) = Z.to_nat (m_range g + 1).
Proof.
  intros Hv Hr Hi. pose proof (valid_prime_bounds g Hv) as Hb.
  destruct (valid_prime g Hv) as [Hp Hm].
  set (p := m_prime g) in *.
  assert (Hcand : map candidate (iterates (Z.to_nat p) g) =
                  map (fun x => permuteQPR p (permuteQPR p
                                  ((m_index g + x) mod p)))
                      (zrange p)).
  { rewrite iterates_candidates, iterates_index by assumption.
    unfold zrange. rewrite !map_map. reflexivity. }
  assert (Hbij : bijection_below p
            (fun x => permuteQPR p (permuteQPR p ((m_index g + x) mod p)))).
  { assert (Hq : bijection_below p (permuteQPR p)).
    { apply permuteQPR_bijective; [assumption | assumption | lia]. }
    apply (bijection_below_compose p (fun x => (m_index g + x) mod p)
             (fun y => permuteQPR p (permuteQPR p y))).
    - apply shift_bijection. lia.
    - apply (bijection_below_compose p (permuteQPR p) (permuteQPR p));
        assumption. }
  destruct (bijection_below_map p _ Hbij) as (Hnd & Hin).
  assert (Hnd' : NoDup (accepted (Z.to_nat p) g)).
  { unfold accepted. rewrite Hcand. apply NoDup_filter, Hnd. }
  assert (Hin' : forall v, In v (accepted (Z.to_nat p) g) <->
                           0 <= v <= m_range g).
  { intros v. unfold accepted. rewrite Hcand, filter_In, Hin, Z.leb_le.
    lia. }
  split; [exact Hnd'|]. split; [exact Hin'|].
  rewrite <- (length_zrange (m_range g + 1)).
  apply same_elements_length; [exact Hnd' | apply NoDup_zrange|].
  intros x. rewrite Hin', In_zrange. lia.
Qed.

Lemma candidate_outside (g : UniqueSeq) :
  m_prime g <= m_index g -> candidate g = m_index g.
Proof.
  intros Hi. unfold candidate, permuteQPR.
  destruct (Z.geb_spec (m_index g) (m_prime g)) as [_|]; [|lia].
  destruct (Z.geb_spec (m_index g) (m_prime g)) as [_|]; [|lia].
  reflexivity.
Qed.

Lemma outputs_full_period (g : UniqueSeq) :
  valid g -> 1 <= m_range g < m_prime g ->
  exists outs,
    outputs (Z.to_nat (m_range g + 1)) g = Some outs /\
    NoDup outs /\
    (forall v, In v outs <-> 0 <= v <= m_range g).
Proof.
  assert (Hcycle : forall h, valid h -> 1 <= m_range h < m_prime h ->
            m_index h < m_prime h ->
            exists outs,
              outputs (Z.to_nat (m_range h + 1)) h = Some outs /\
              NoDup outs /\
              (forall v, In v outs <-> 0 <= v <= m_range h)).
  { intros h Hv Hr Hi.
    destruct (accepted_full_period h Hv ltac:(lia) Hi) as (Hnd & Hin & Hlen).
    exists (accepted (Z.to_nat (m_prime h)) h).
    rewrite <- Hlen. split; [|split; assumption].
    apply outputs_accepted; [assumption | lia]. }
  intros Hv Hr.
  destruct (Z_lt_ge_dec (m_index g) (m_prime g)) as [Hi|Hi].
  - apply Hcycle; assumption.
  - rewrite outputs_reject;
      [| assumption | lia | rewrite candidate_outside; lia].
    apply (Hcycle (advance g));
      [apply advance_valid, Hv | exact Hr | apply (advance_index g Hv)].
Qed.

Lemma run_next_firstn (k m : nat) (g : UniqueSeq)
    (outs : list Z) (g' : UniqueSeq) :
  run_next (k + m) g = Some (outs, g') ->
  exists g'', run_next k g = Some (firstn k outs, g'').
Proof.
  revert g outs. induction k as [|k IH]; intros g outs.
  - intros _. exists g. reflexivity.
  - cbn [Nat.add]. rewrite !run_next_S.
    destruct (next g) as [res g1| |]; try discriminate.
    destruct (run_next (k + m) g1) as [[rest g2]|] eqn:Hrest;
      [|discriminate].
    intros H. injection H as <- <-.
    destruct (IH g1 rest Hrest) as (g'' & Hk).
    exists g''. rewrite Hk. reflexivity.
Qed.

Lemma NoDup_firstn (k : nat) (l : list Z) : NoDup l -> NoDup (firstn k l).
Proof.
  intros H. rewrite <- (firstn_skipn k l) in H.
  apply NoDup_app_remove_r in H. exact H.
Qed.

(** When the range is not itself a prime congruent to 3 modulo 4 the prime
    selected is above the range, and the first [range + 1] values are the
    integers of [[0, range]], each exactly once; every prefix of them is
    free of duplicates. *)
Lemma full_period (range seed : Z) (g : UniqueSeq) :
  1 <= range <= 4294967291 -> ~ suitable range ->
  UniqueSeq_ctor range seed = Some g ->
  exists outs,
    outputs (Z.to_nat (range + 1)) g = Some outs /\
    NoDup outs /\
    (forall v, In v outs <-> 0 <= v <= range) /\
    (forall k, (k <= Z.to_nat (range + 1))%nat ->
       outputs k g = Some (firstn k outs) /\ NoDup (firstn k outs)).
Proof.
  intros Hr Hns Hctor.
  destruct (reachable_valid range seed g (reach_ctor _ _ _ Hctor))
    as (Hv & Hrg & Hsel).
  rewrite (u32_small range) in Hrg, Hsel by lia.
  unfold selected_prime in Hsel.
  destruct (Z.gtb_spec range 4294967291) as [|_]; [lia|].
  destruct Hsel as ((Hsuit & Hle & _) & _).
  assert (Hlt : range < m_prime g).
  { destruct (Z.eq_dec range (m_prime g)) as [Heq|]; [|lia].
    exfalso. apply Hns. rewrite Heq. exact Hsuit. }
  destruct (outputs_full_period g Hv ltac:(lia)) as (outs & Hout & Hnd & Hin).
  rewrite Hrg in Hout, Hin.
  exists outs. split; [assumption|]. split; [assumption|].
  split; [assumption|].
  intros k Hk. split; [|apply NoDup_firstn, Hnd].
  unfold outputs in *.
  destruct (run_next (Z.to_nat (range + 1)) g) as [[outs' g']|] eqn:Hrun;
    [|discriminate].
  cbn [option_map fst] in Hout. injection Hout as ->.
  replace (Z.to_nat (range + 1)) with (k + (Z.to_nat (range + 1) - k))%nat
    in Hrun by lia.
  destruct (run_next_firstn _ _ _ _ _ Hrun) as (g'' & Hk').
  rewrite Hk'. reflexivity.
Qed.

(** With [range = 4294967291], itself the prime selected, and [seed = 1]
    the constructor leaves index 4294967292; its candidate is rejected and
    every later candidate is below the prime, so the value [range] never
    comes out. *)
Lemma largest_prime_range_state :
  UniqueSeq_ctor 4294967291 1 =
    Some {| m_index := 4294967292; m_intermediateOffset := 0;
            m_prime := 4294967291; m_range := 4294967291 |}.
Proof. vm_compute. reflexivity. Qed.

Lemma largest_prime_range_never_emitted (n : nat) (outs : list Z) :
  outputs n (mkUniqueSeq 4294967292 0 4294967291 4294967291) = Some outs ->
  ~ In 4294967291 outs.
Proof.
  set (g := mkUniqueSeq 4294967292 0 4294967291 4294967291).
  destruct (reachable_valid _ _ g (reach_ctor _ _ _ largest_prime_range_state))
    as (Hv & _).
  rewrite outputs_reject; [| assumption | cbn; lia
                           | rewrite candidate_outside; cbn; lia].
  destruct (run_next_total n (advance g) (advance_valid g Hv))
    as (outs' & g' & Hrun & _ & _ & _ & _ & _ & _ & Hlow); [cbn; lia|].
  unfold outputs. rewrite Hrun. cbn [option_map fst].
  intros H. injection H as <-.
  specialize (Hlow (proj2 (advance_index g Hv))).
  rewrite Forall_forall in Hlow. intros Hin.
  apply Hlow in Hin. change (m_prime (advance g)) with 4294967291 in Hin.
  lia.
Qed.

(** ** The generator at work *)

Example next_prime_values :
  map __next_prime [0; 1; 2; 3; 4; 90; 4294967291] =
  [Some 2; Some 2; Some 2; Some 3; Some 5; Some 97; Some 4294967291].
Proof. vm_compute. reflexivity. Qed.

(** The primes selected for the universe sizes of the benchmark and for the
    smallest ranges. *)
Example suitable_primes :
  map get_next_suitable_prime
    [1; 2; 3; 4; 7; 8; 10; 100; 1000; 10000; 100000; 1000000000] =
  [Some 3; Some 3; Some 3; Some 7; Some 7; Some 11; Some 11; Some 103;
   Some 1019; Some 10007; Some 100003; Some 1000000007].
Proof. vm_compute. reflexivity. Qed.

Example permuteQPR_11 :
  map (permuteQPR 11) (zrange 11) = [0; 1; 4; 9; 5; 3; 8; 6; 2; 7; 10].
Proof. vm_compute. reflexivity. Qed.

(** [range = 10], [seed = 1]: the prime is 11 and the first eleven values
    are the integers from 0 to 10, each once. *)
Example scenario_range_10 :
  UniqueSeq_ctor 10 1 = Some (mkUniqueSeq 13 1 11 10) /\
  outputs 11 (mkUniqueSeq 13 1 11 10) =
    Some [7; 3; 9; 2; 8; 4; 6; 10; 0; 1; 5].
Proof. split; vm_compute; reflexivity. Qed.

(** * The claims of the specification *)

(** C1. The claim fails when the range is itself a prime congruent to 3
    modulo 4, for then the prime selected is the range and the value
    [range] is outside the permuted interval.  For [range = 3], [seed = 1]
    the first [range + 1 = 4] values are 2, 0, 1, 2, with 2 twice and 3
    missing; for [range = 4294967291], [seed = 1] the value 4294967291 is
    in no sequence of values the generator returns.  ([full_period] has the
    claim for every other range.) *)
Theorem period_of_prime_range :
  (exists g outs,
     UniqueSeq_ctor 3 1 = Some g /\ m_prime g = 3 /\
     outputs 4 g = Some outs /\ outs = [2; 0; 1; 2] /\
     ~ NoDup outs /\ ~ In 3 outs) /\
  (exists g,
     UniqueSeq_ctor 4294967291 1 = Some g /\ m_prime g = 4294967291 /\
     forall n outs, outputs n g = Some outs -> ~ In 4294967291 outs).
Proof.
  split.
  - exists (mkUniqueSeq 4 0 3 3), [2; 0; 1; 2].
    split; [vm_compute; reflexivity|]. split; [reflexivity|].
    split; [vm_compute; reflexivity|]. split; [reflexivity|]. split.
    + intros Hnd. inversion Hnd as [|x l Hnotin _]; subst.
      apply Hnotin. right; right; left. reflexivity.
    + intros [H|[H|[H|[H|[]]]]]; discriminate H.
  - exists (mkUniqueSeq 4294967292 0 4294967291 4294967291).
    split; [apply largest_prime_range_state|]. split; [reflexivity|].
    apply largest_prime_range_never_emitted.
Qed.

(** C2. For every prime [p] congruent to 3 modulo 4 (that fits the
    [unsigned int] field [m_prime]), [permuteQPR] computes on [[0, p)] the
    map sending [x] to [x * x mod p] when [x <= p / 2] and to
    [p - x * x mod p] otherwise, and that map is a bijection of [[0, p)]:
    it stays below [p], distinct arguments give distinct results, and every
    value below [p] is reached. *)
Theorem permuteQPR_bijection (p : Z) :
  prime p -> p mod 4 = 3 -> p < 2 ^ 32 ->
  (forall x, 0 <= x < p ->
     permuteQPR p x =
     if x <=? p / 2 then (x * x) mod p else p - (x * x) mod p) /\
  bijection_below p (permuteQPR p).
Proof.
  intros Hp Hm Hu. split; [apply permuteQPR_unfold; assumption|].
  apply permuteQPR_bijective; assumption.
Qed.

Lemma permuteQPR_bijection_witness :
  prime 11 /\
  (forall x, 0 <= x < 11 ->
     permuteQPR 11 x =
     if x <=? 11 / 2 then (x * x) mod 11 else 11 - (x * x) mod 11) /\
  bijection_below 11 (permuteQPR 11).
Proof.
  assert (H11 : prime 11) by (apply is_prime_spec; vm_compute; reflexivity).
  split; [exact H11|].
  apply (permuteQPR_bijection 11); [exact H11 | reflexivity | reflexivity].
Defined.

(** C3. For every range with [1 <= range <= 4294967291] the constructor
    succeeds and its prime is the smallest prime [p >= range] with
    [p mod 4 = 3]; it is reached by the probe sequence that starts from
    [range - 1] and feeds every prime the collaborator answers back in until
    one is congruent to 3 modulo 4. *)
Theorem ctor_selects_least_suitable_prime (range seed : Z) :
  1 <= range <= 4294967291 ->
  exists g,
    UniqueSeq_ctor range seed = Some g /\
    least_suitable_from range (m_prime g) /\
    probes_to (range - 1) (m_prime g).
Proof.
  intros Hr.
  destruct (UniqueSeq_ctor_spec range seed) as (g & Hg & _ & _ & Hsel & _).
  rewrite (u32_small range) in Hsel by lia.
  unfold selected_prime in Hsel.
  destruct (Z.gtb_spec range 4294967291) as [|_]; [lia|].
  rewrite (u64_small (range - 1)) in Hsel by lia.
  exists g. split; [assumption | exact Hsel].
Qed.

Lemma ctor_selects_least_suitable_prime_witness :
  1 <= 10 <= 4294967291 /\
  exists g,
    UniqueSeq_ctor 10 1 = Some g /\
    least_suitable_from 10 (m_prime g) /\
    probes_to (10 - 1) (m_prime g).
Proof.
  split; [lia|]. apply (ctor_selects_least_suitable_prime 10 1). lia.
Defined.

(** C4, as written, fails: right after construction the index need not be
    below the prime, because [permuteQPR] hands an argument [>= m_prime]
    back unchanged.  With the cap ([range = 4294967295], [seed = 65536])
    the constructor leaves [m_index = 4294967292] with
    [m_prime = 4294967291]; with [range = 10], [seed = 1] it leaves
    [m_index = 13] with [m_prime = 11]. *)
Lemma ctor_index_not_below_prime :
  UniqueSeq_ctor 4294967295 65536 =
    Some {| m_index := 4294967292; m_intermediateOffset := 4294967292;
            m_prime := 4294967291; m_range := 4294967295 |} /\
  ~ (4294967292 < 4294967291) /\
  UniqueSeq_ctor 10 1 =
    Some {| m_index := 13; m_intermediateOffset := 1;
            m_prime := 11; m_range := 10 |} /\
  ~ (13 < 11).
Proof.
  split; [vm_compute; reflexivity|]. split; [lia|].
  split; [vm_compute; reflexivity | lia].
Qed.

(** C4, amended. In every state a generator goes through, a call of
    [next()] leaves the index below the prime. *)
Theorem next_index_below_prime (range seed : Z) (g : UniqueSeq)
    (res : Z) (g' : UniqueSeq) :
  reachable range seed g -> next g = Returned res g' ->
  0 <= m_index g' < m_prime g'.
Proof.
  intros Hreach Hnext.
  destruct (reachable_valid range seed g Hreach) as (Hv & _).
  destruct (next_valid g res g' Hv Hnext) as (Hv' & Hi & _).
  pose proof (valid_index g' Hv'). lia.
Qed.

Lemma next_index_below_prime_witness :
  0 <= m_index (mkUniqueSeq 4 1 11 10) < m_prime (mkUniqueSeq 4 1 11 10).
Proof.
  apply (next_index_below_prime 10 1 (mkUniqueSeq 13 1 11 10) 7).
  - apply reach_ctor. vm_compute. reflexivity.
  - vm_compute. reflexivity.
Defined.

Lemma iter_advance_index_after (k : nat) (g : UniqueSeq) :
  m_index (Nat.iter k advance g) = index_after (m_prime g) k (m_index g).
Proof.
  induction k as [|k IH]; [reflexivity|].
  rewrite Nat.iter_succ.
  change (m_index (advance (Nat.iter k advance g)))
    with (u32 (m_index (Nat.iter k advance g) + 1)
          mod m_prime (Nat.iter k advance g)).
  destruct (iter_advance_fields k g) as (Hp & _). rewrite Hp, IH.
  reflexivity.
Qed.

Lemma iter_advance_set_index (k : nat) (g : UniqueSeq) :
  Nat.iter (Datatypes.S k) advance g =
  set_index g (index_after (m_prime g) (Datatypes.S k) (m_index g)).
Proof.
  rewrite Nat.iter_succ.
  destruct (iter_advance_fields k g) as (Hp & Hr & Ho).
  unfold advance at 1, set_index.
  rewrite Hp, Hr, Ho, iter_advance_index_after. reflexivity.
Qed.

Lemma iter_advance_candidate (k : nat) (g : UniqueSeq) :
  candidate (Nat.iter k advance g) =
  permuteQPR (m_prime g)
    (permuteQPR (m_prime g) (index_after (m_prime g) k (m_index g))).
Proof.
  unfold candidate. destruct (iter_advance_fields k g) as (-> & _).
  rewrite iter_advance_index_after. reflexivity.
Qed.

Lemma index_after_stored (p : Z) (k : nat) (i : Z) :
  0 < p < 2 ^ 32 ->
  0 <= index_after p (Datatypes.S k) i < p /\
  index_after p (Datatypes.S (Datatypes.S k)) i =
    (index_after p (Datatypes.S k) i + 1) mod p.
Proof.
  intros Hp.
  assert (H : 0 <= index_after p (Datatypes.S k) i < p).
  { unfold index_after. rewrite Nat.iter_succ.
    apply Z.mod_pos_bound. lia. }
  split; [exact H|].
  unfold index_after in *. rewrite (Nat.iter_succ (Datatypes.S k)).
  rewrite u32_small by lia. reflexivity.
Qed.

(** C5, as written, fails at the index [UINT_MAX]: the source adds 1 in
    [unsigned int], so the index advances to [0 % m_prime = 0], not to
    [(index + 1) mod prime].  [range = 10], [seed = 4294967283] is such a
    generator: the seed is handed back unchanged by [permuteQPR] and the
    constructor leaves [m_index = 4294967283 + 22 - 10 = 4294967295] with
    [m_prime = 11].  The first round of [next()] rejects the candidate
    4294967295 and stores index 0, where [(4294967295 + 1) mod 11 = 4]; the
    call then returns the candidate of index 0, which is 0, and not that of
    index 4, which is 3. *)
Lemma advance_wraps_at_uint_max :
  UniqueSeq_ctor 10 4294967283 =
    Some {| m_index := 4294967295; m_intermediateOffset := 1;
            m_prime := 11; m_range := 10 |} /\
  m_index (advance (mkUniqueSeq 4294967295 1 11 10)) = 0 /\
  (4294967295 + 1) mod 11 = 4 /\
  m_index (advance (mkUniqueSeq 4294967295 1 11 10)) <>
    (m_index (mkUniqueSeq 4294967295 1 11 10) + 1)
    mod m_prime (mkUniqueSeq 4294967295 1 11 10) /\
  next (mkUniqueSeq 4294967295 1 11 10) =
    Returned 0 (mkUniqueSeq 1 1 11 10) /\
  permuteQPR 11 (permuteQPR 11 4) = 3.
Proof.
  split; [vm_compute; reflexivity|]. split; [vm_compute; reflexivity|].
  split; [reflexivity|]. split; [vm_compute; discriminate|].
  split; vm_compute; reflexivity.
Qed.

(** C5, amended. [next()] returns [res] and leaves state [g'] exactly when,
    for some number [n] of rejected rounds: in each of the first [n] rounds
    the candidate, the permutation applied twice to the current index (the
    offset field is not read), exceeds [m_range]; every round, rejected or
    not, advances the index to [((index + 1) mod 2^32) mod m_prime], the
    sum being an [unsigned int] sum; the candidate of round [n + 1] is at
    most [m_range] and is [res]; and [g'] is [g] with the index of round
    [n + 2], its other fields untouched.  For an index a round has stored
    the advance is [(index + 1) mod m_prime]. *)
Theorem next_loop_unsigned (g : UniqueSeq) (res : Z) (g' : UniqueSeq) :
  (next g = Returned res g' <->
   m_prime g <> 0 /\
   exists n : nat,
     Z.of_nat n < 2 ^ 32 /\
     (forall k, (k < n)%nat ->
        permuteQPR (m_prime g)
          (permuteQPR (m_prime g)
             (index_after (m_prime g) k (m_index g))) > m_range g) /\
     res = permuteQPR (m_prime g)
             (permuteQPR (m_prime g)
                (index_after (m_prime g) n (m_index g))) /\
     res <= m_range g /\
     g' = {| m_index := index_after (m_prime g) (Datatypes.S n) (m_index g);
             m_intermediateOffset := m_intermediateOffset g;
             m_prime := m_prime g;
             m_range := m_range g |}) /\
  (forall k,
     index_after (m_prime g) (Datatypes.S k) (m_index g) =
     (index_after (m_prime g) k (m_index g) + 1) mod 2 ^ 32 mod m_prime g) /\
  (0 < m_prime g < 2 ^ 32 ->
   forall k,
     index_after (m_prime g) (Datatypes.S (Datatypes.S k)) (m_index g) =
     (index_after (m_prime g) (Datatypes.S k) (m_index g) + 1)
     mod m_prime g).
Proof.
  split; [|split].
  - rewrite next_rounds. split.
    + intros (Hp & n & Hn & Hr). split; [exact Hp|]. exists n.
      split; [exact Hn|]. apply rounds_trace in Hr.
      destruct Hr as (Hall & Hlast & -> & ->).
      rewrite <- iter_advance_candidate.
      split; [|split; [reflexivity|]; split; [exact Hlast|]].
      * intros k Hk. rewrite <- iter_advance_candidate. apply Hall, Hk.
      * apply iter_advance_set_index.
    + intros (Hp & n & Hn & Hall & -> & Hlast & ->).
      split; [exact Hp|]. exists n. split; [exact Hn|].
      apply rounds_trace. rewrite <- iter_advance_candidate in *.
      split; [|split; [exact Hlast|]; split; [reflexivity|]].
      * intros k Hk. rewrite iter_advance_candidate. apply Hall, Hk.
      * symmetry. apply iter_advance_set_index.
  - intros k. reflexivity.
  - intros Hp k. apply index_after_stored. exact Hp.
Qed.

(** C6. Every call of [next()] on a generator built with a range of at
    least 1 returns: from every state the generator goes through, the loop
    accepts a candidate after [n] rejected rounds with [n + 1 <= m_prime],
    so after at most [m_prime] advances of the index, and the call neither
    divides by zero nor loops forever. *)
Theorem next_always_returns (range seed : Z) (g : UniqueSeq) :
  1 <= range < 2 ^ 32 -> reachable range seed g ->
  exists n res g',
    next g = Returned res g' /\
    rounds g n res g' /\
    Z.of_nat n + 1 <= m_prime g.
Proof.
  intros Hr Hreach.
  destruct (reachable_valid range seed g Hreach) as (Hv & Hrg & _).
  rewrite u32_small in Hrg by lia.
  destruct (next_terminates g Hv ltac:(lia)) as (n & res & g' & H1 & H2 & H3).
  exists n, res, g'. split; [assumption|]. split; assumption.
Qed.

Lemma next_always_returns_witness :
  exists n res g',
    next (mkUniqueSeq 13 1 11 10) = Returned res g' /\
    rounds (mkUniqueSeq 13 1 11 10) n res g' /\
    Z.of_nat n + 1 <= m_prime (mkUniqueSeq 13 1 11 10).
Proof.
  apply (next_always_returns 10 1); [lia|].
  apply reach_ctor. vm_compute. reflexivity.
Defined.

(** C7, as written, fails.  The constructor's parameter is an
    [unsigned int]: the argument 5000000000 arrives as
    [5000000000 mod 2^32 = 705032704], which is below the cap, and the prime
    selected is 705032719.  And a generator that is capped can emit a value
    above 4294967291 in its first call: with [range = 4294967295] and
    [seed = 65536] the constructor leaves [m_index = 4294967292], which
    [permuteQPR] hands back unchanged. *)
Lemma range_5000000000_not_capped :
  UniqueSeq_ctor 5000000000 1 =
    Some {| m_index := 705032735; m_intermediateOffset := 15;
            m_prime := 705032719; m_range := 705032704 |} /\
  705032719 <> 4294967291 /\
  UniqueSeq_ctor 4294967295 65536 =
    Some {| m_index := 4294967292; m_intermediateOffset := 4294967292;
            m_prime := 4294967291; m_range := 4294967295 |} /\
  outputs 1 (mkUniqueSeq 4294967292 4294967292 4294967291 4294967295) =
    Some [4294967292] /\
  4294967292 > 4294967291.
Proof.
  split; [vm_compute; reflexivity|]. split; [lia|].
  split; [vm_compute; reflexivity|].
  split; [vm_compute; reflexivity | lia].
Qed.

(** C7, amended. A range above 4294967291 that the [unsigned int] parameter
    can hold (4294967292 to 4294967295) selects the prime 4294967291; such a
    generator returns from every call, every value it emits is at most
    [range], and every value after the first call is below 4294967291. *)
Theorem capped_generator (range seed : Z) :
  4294967291 < range < 2 ^ 32 ->
  exists g,
    UniqueSeq_ctor range seed = Some g /\
    m_prime g = 4294967291 /\
    forall n, exists outs,
      outputs n g = Some outs /\ length outs = n /\
      Forall (fun v => 0 <= v <= range) outs /\
      Forall (fun v => v < 4294967291) (tl outs).
Proof.
  intros Hr.
  destruct (UniqueSeq_ctor_spec range seed) as (g & Hg & Hv & Hrg & Hsel & _).
  rewrite (u32_small range) in Hrg, Hsel by lia.
  unfold selected_prime in Hsel.
  destruct (Z.gtb_spec range 4294967291) as [_|]; [|lia].
  exists g. split; [assumption|]. split; [assumption|].
  intros n.
  destruct (run_next_total n g Hv ltac:(lia))
    as (outs & g' & Hrun & Hlen & _ & _ & _ & Hall & Htl & _).
  exists outs. unfold outputs. rewrite Hrun.
  split; [reflexivity|]. split; [assumption|].
  rewrite Hrg in Hall. rewrite Hsel in Htl. split; assumption.
Qed.

Lemma capped_generator_witness :
  4294967291 < 4294967295 < 2 ^ 32 /\
  exists g,
    UniqueSeq_ctor 4294967295 1 = Some g /\
    m_prime g = 4294967291 /\
    forall n, exists outs,
      outputs n g = Some outs /\ length outs = n /\
      Forall (fun v => 0 <= v <= 4294967295) outs /\
      Forall (fun v => v < 4294967291) (tl outs).
Proof.
  split; [lia|]. apply (capped_generator 4294967295 1). lia.
Defined.

(** C8, as written, fails: constructing with [range = 0] raises nothing and
    yields a generator (with prime 3). *)
Lemma ctor_range_0_succeeds :
  UniqueSeq_ctor 0 1 =
    Some {| m_index := 7; m_intermediateOffset := 3;
            m_prime := 3; m_range := 0 |}.
Proof. vm_compute. reflexivity. Qed.

(** C8, amended. The constructor validates nothing: construction succeeds
    for every range and seed, [range = 0] included, and records the
    (converted) range as given. *)
Theorem ctor_never_fails (range seed : Z) :
  exists g, UniqueSeq_ctor range seed = Some g /\ m_range g = u32 range.
Proof.
  destruct (UniqueSeq_ctor_spec range seed) as (g & Hg & _ & Hr & _).
  exists g. split; assumption.
Qed.

(** C9. Two generators constructed with the same [(range, seed)],
    [range >= 1], produce the same sequence: for every [n] both return from
    [n] successive calls of [next()] and the [n] values agree element for
    element. *)
Theorem same_arguments_same_outputs (range seed : Z) (g1 g2 : UniqueSeq) :
  1 <= range < 2 ^ 32 ->
  UniqueSeq_ctor range seed = Some g1 ->
  UniqueSeq_ctor range seed = Some g2 ->
  forall n, exists outs,
    outputs n g1 = Some outs /\ outputs n g2 = Some outs /\
    length outs = n.
Proof.
  intros Hr H1 H2 n.
  assert (g1 = g2) by congruence. subst g2.
  destruct (reachable_valid range seed g1 (reach_ctor _ _ _ H1))
    as (Hv & Hrg & _).
  rewrite u32_small in Hrg by lia.
  destruct (run_next_total n g1 Hv ltac:(lia))
    as (outs & g' & Hrun & Hlen & _).
  exists outs. unfold outputs. rewrite Hrun.
  split; [reflexivity|]. split; [reflexivity | assumption].
Qed.

Lemma same_arguments_same_outputs_witness :
  exists outs,
    outputs 11 (mkUniqueSeq 13 1 11 10) = Some outs /\
    outputs 11 (mkUniqueSeq 13 1 11 10) = Some outs /\
    length outs = 11%nat.
Proof.
  apply (same_arguments_same_outputs 10 1);
    [lia | vm_compute; reflexivity | vm_compute; reflexivity].
Defined.

(** C10. A call of [next()] writes the index field only: in the state it
    leaves, the prime, the range and the offset have the values they had
    before the call.  The offset field is never read: on two states that
    differ in that field only, [next()] returns the same value and leaves
    the same index, the prime, range and offset fields being untouched. *)
Theorem next_frame (g : UniqueSeq) (offset : Z) :
  match next g with
  | Returned res g' =>
      m_prime g' = m_prime g /\ m_range g' = m_range g /\
      m_intermediateOffset g' = m_intermediateOffset g /\
      next (set_intermediateOffset g offset) =
        Returned res (set_intermediateOffset g' offset)
  | other => next (set_intermediateOffset g offset) = other
  end.
Proof.
  assert (Hoff : next (set_intermediateOffset g offset) =
                 outcome_with_offset (next g) offset).
  { unfold next. rewrite !loop_pos_nat, loop_nat_offset.
    destruct (loop_nat next_step (Pos.to_nat (2 ^ 32)) g) as [|[| |]];
      reflexivity. }
  destruct (next g) as [res g'| |] eqn:Hnext; try exact Hoff.
  apply next_rounds in Hnext. destruct Hnext as (_ & n & _ & Hr).
  destruct (rounds_fields g n res g' Hr) as (Hp & Hrg & Ho).
  split; [assumption|]. split; [assumption|]. split; [assumption|].
  exact Hoff.
Qed.

(** * Further properties of the code *)

(** ** The cycle of [next()] *)

Lemma UniqueSeq_ext (a b : UniqueSeq) :
  m_index a = m_index b ->
  m_intermediateOffset a = m_intermediateOffset b ->
  m_prime a = m_prime b -> m_range a = m_range b -> a = b.
Proof.
  destruct a, b. cbn. intros -> -> -> ->. reflexivity.
Qed.

Lemma iter_advance_valid (k : nat) (g : UniqueSeq) :
  valid g -> valid (Nat.iter k advance g).
Proof.
  intros Hv. induction k as [|k IH]; [exact Hv|].
  rewrite Nat.iter_succ. apply advance_valid, IH.
Qed.

Lemma iter_advance_index (k : nat) (g : UniqueSeq) :
  valid g -> m_index g < m_prime g ->
  m_index (Nat.iter k advance g) =
  (m_index g + Z.of_nat k) mod m_prime g.
Proof.
  intros Hv Hi. pose proof (valid_prime_bounds g Hv) as Hb.
  pose proof (valid_index g Hv) as Hi0.
  induction k as [|k IH].
  - cbn [Nat.iter]. rewrite Z.add_0_r, Z.mod_small by lia. reflexivity.
  - rewrite Nat.iter_succ.
    change (m_index (advance (Nat.iter k advance g)))
      with (u32 (m_index (Nat.iter k advance g) + 1)
            mod m_prime (Nat.iter k advance g)).
    destruct (iter_advance_fields k g) as (Hp & _). rewrite Hp, IH.
    pose proof (Z.mod_pos_bound (m_index g + Z.of_nat k) (m_prime g)
                  ltac:(lia)).
    rewrite u32_small by lia.
    rewrite Zplus_mod_idemp_l. f_equal. lia.
Qed.

(** After [m_prime] rounds the generator is back in the state it was in. *)
Lemma advance_period (g : UniqueSeq) :
  valid g -> m_index g < m_prime g ->
  Nat.iter (Z.to_nat (m_prime g)) advance g = g.
Proof.
  intros Hv Hi. pose proof (valid_prime_bounds g Hv) as Hb.
  pose proof (valid_index g Hv) as Hi0.
  destruct (iter_advance_fields (Z.to_nat (m_prime g)) g) as (Hp & Hr & Ho).
  apply UniqueSeq_ext; try assumption.
  rewrite iter_advance_index by assumption.
  rewrite Z2Nat.id by lia.
  replace (m_index g + m_prime g) with (m_index g + 1 * m_prime g) by lia.
  rewrite Z.mod_add by lia. apply Z.mod_small. lia.
Qed.

Lemma iterates_app (a b : nat) (g : UniqueSeq) :
  iterates (a + b) g = iterates a g ++ iterates b (Nat.iter a advance g).
Proof.
  revert g. induction a as [|a IH]; intros g; [reflexivity|].
  cbn [Nat.add iterates app]. rewrite IH, Nat.iter_succ_r. reflexivity.
Qed.

Lemma accepted_app (a b : nat) (g : UniqueSeq) :
  accepted (a + b) g = accepted a g ++ accepted b (Nat.iter a advance g).
Proof.
  unfold accepted. rewrite iterates_app, map_app, filter_app.
  destruct (iter_advance_fields a g) as (_ & -> & _). reflexivity.
Qed.

(** The candidates accepted during [m_prime] successive rounds, from an
    index below the prime, are the integers from 0 to
    [min m_range (m_prime - 1)], each once. *)
Lemma accepted_one_period (g : UniqueSeq) :
  valid g -> 0 <= m_range g -> m_index g < m_prime g ->
  NoDup (accepted (Z.to_nat (m_prime g)) g) /\
  (forall v, In v (accepted (Z.to_nat (m_prime g)) g) <->
             0 <= v <= Z.min (m_range g) (m_prime g - 1)) /\
  length (accepted (Z.to_nat (m_prime g)) g) =
    Z.to_nat (Z.min (m_range g + 1) (m_prime g)).
Proof.
  intros Hv Hr Hi. pose proof (valid_prime_bounds g Hv) as Hb.
  destruct (valid_prime g Hv) as [Hp Hm].
  set (p := m_prime g) in *.
  assert (Hcand : map candidate (iterates (Z.to_nat p) g) =
                  map (fun x => permuteQPR p (permuteQPR p
                                  ((m_index g + x) mod p)))
                      (zrange p)).
  { rewrite iterates_candidates, iterates_index by assumption.
    unfold zrange. rewrite !map_map. reflexivity. }
  assert (Hbij : bijection_below p
            (fun x => permuteQPR p (permuteQPR p ((m_index g + x) mod p)))).
  { assert (Hq : bijection_below p (permuteQPR p)).
    { apply permuteQPR_bijective; [assumption | assumption | lia]. }
    apply (bijection_below_compose p (fun x => (m_index g + x) mod p)
             (fun y => permuteQPR p (permuteQPR p y))).
    - apply shift_bijection. lia.
    - apply (bijection_below_compose p (permuteQPR p) (permuteQPR p));
        assumption. }
  destruct (bijection_below_map p _ Hbij) as (Hnd & Hin).
  assert (Hnd' : NoDup (accepted (Z.to_nat p) g)).
  { unfold accepted. rewrite Hcand. apply NoDup_filter, Hnd. }
  assert (Hin' : forall v, In v (accepted (Z.to_nat p) g) <->
                           0 <= v <= Z.min (m_range g) (p - 1)).
  { intros v. unfold accepted. rewrite Hcand, filter_In, Hin, Z.leb_le.
    lia. }
  split; [exact Hnd'|]. split; [exact Hin'|].
  rewrite <- (length_zrange (Z.min (m_range g + 1) p)).
  apply same_elements_length; [exact Hnd' | apply NoDup_zrange|].
  intros x. rewrite Hin', In_zrange. lia.
Qed.

Lemma accepted_periods (m : nat) (g : UniqueSeq) :
  valid g -> 0 <= m_range g -> m_index g < m_prime g ->
  (m <= length (accepted (m * Z.to_nat (m_prime g)) g))%nat.
Proof.
  intros Hv Hr Hi. pose proof (valid_prime_bounds g Hv) as Hb.
  destruct (accepted_one_period g Hv Hr Hi) as (_ & _ & Hlen).
  induction m as [|m IH]; [apply Nat.le_0_l|].
  cbn [Nat.mul]. rewrite accepted_app, length_app, Hlen.
  rewrite advance_period by assumption. lia.
Qed.

Lemma outputs_firstn (k n : nat) (g : UniqueSeq) (outs : list Z) :
  (k <= n)%nat -> outputs n g = Some outs ->
  outputs k g = Some (firstn k outs).
Proof.
  intros Hk Hout. unfold outputs in *.
  destruct (run_next n g) as [[outs' g']|] eqn:Hrun; [|discriminate].
  cbn [option_map fst] in Hout. injection Hout as ->.
  replace n with (k + (n - k))%nat in Hrun by lia.
  destruct (run_next_firstn _ _ _ _ _ Hrun) as (g'' & Hk').
  rewrite Hk'. reflexivity.
Qed.

(** From an index below the prime, the values [next()] returns are one
    cycle repeated for ever. *)
Lemma outputs_periodic (g : UniqueSeq) (m : nat) :
  valid g -> 1 <= m_range g -> m_index g < m_prime g ->
  exists outs,
    outputs m g = Some outs /\
    outputs (length (accepted (Z.to_nat (m_prime g)) g) + m) g =
      Some (accepted (Z.to_nat (m_prime g)) g ++ outs).
Proof.
  intros Hv Hr Hi.
  set (P := Z.to_nat (m_prime g)). set (A := accepted P g).
  set (B := accepted (m * P) g).
  assert (HB : (m <= length B)%nat)
    by (apply accepted_periods; [assumption | lia | assumption]).
  assert (Hout : outputs (length B) g = Some B)
    by (apply outputs_accepted; assumption).
  assert (HAB : accepted (P + m * P) g = A ++ B).
  { rewrite accepted_app. unfold P at 3. rewrite advance_period by assumption.
    reflexivity. }
  assert (Hout2 : outputs (length (A ++ B)) g = Some (A ++ B)).
  { rewrite <- HAB. apply outputs_accepted; assumption. }
  exists (firstn m B). split.
  - apply (outputs_firstn m (length B)); assumption.
  - rewrite (outputs_firstn (length A + m) (length (A ++ B)) g (A ++ B));
      [| rewrite length_app; lia | assumption].
    rewrite firstn_app_2. reflexivity.
Qed.

Lemma in_cycle_prefix (g : UniqueSeq) (k : nat) :
  valid g -> 1 <= m_range g -> m_index g < m_prime g ->
  Z.of_nat k <= Z.min (m_range g + 1) (m_prime g) ->
  exists outs,
    outputs k g = Some outs /\ NoDup outs /\
    Forall (fun v => 0 <= v <= m_range g) outs /\
    Forall (fun v => v < m_prime g) outs.
Proof.
  intros Hv Hr Hi Hk.
  destruct (accepted_one_period g Hv ltac:(lia) Hi) as (Hnd & _ & Hlen).
  pose proof (outputs_accepted (Z.to_nat (m_prime g)) g Hv Hr) as Hout.
  exists (firstn k (accepted (Z.to_nat (m_prime g)) g)).
  assert (Hfirst : outputs k g =
            Some (firstn k (accepted (Z.to_nat (m_prime g)) g))).
  { apply (outputs_firstn k _ g _) in Hout; [exact Hout|]. lia. }
  split; [exact Hfirst|]. split; [apply NoDup_firstn, Hnd|].
  destruct (run_next_total k g Hv Hr)
    as (outs & g' & Hrun & _ & _ & _ & _ & Hall & _ & Hlow).
  unfold outputs in Hfirst. rewrite Hrun in Hfirst.
  cbn [option_map fst] in Hfirst. injection Hfirst as <-.
  split; [exact Hall | exact (Hlow Hi)].
Qed.

(** Whatever the index the constructor left, the first
    [min (m_range + 1) m_prime] values are pairwise distinct. *)
Lemma outputs_prefix_distinct (g : UniqueSeq) (k : nat) :
  valid g -> 1 <= m_range g ->
  Z.of_nat k <= Z.min (m_range g + 1) (m_prime g) ->
  exists outs,
    outputs k g = Some outs /\ NoDup outs /\
    Forall (fun v => 0 <= v <= m_range g) outs.
Proof.
  intros Hv Hr Hk. pose proof (valid_prime_bounds g Hv) as Hb.
  assert (Hcycle : forall h j, valid h -> m_range h = m_range g ->
            m_prime h = m_prime g -> m_index h < m_prime h ->
            (j <= k)%nat ->
            exists outs,
              outputs j h = Some outs /\ NoDup outs /\
              Forall (fun v => 0 <= v <= m_range g) outs /\
              Forall (fun v => v < m_prime g) outs).
  { intros h j Hvh Hrh Hph Hih Hj. rewrite <- Hrh, <- Hph.
    apply in_cycle_prefix; [assumption | lia | assumption | lia]. }
  destruct (Z_lt_ge_dec (m_index g) (m_prime g)) as [Hi|Hi].
  - destruct (Hcycle g k Hv eq_refl eq_refl Hi (Nat.le_refl k))
      as (outs & H1 & H2 & H3 & _).
    exists outs. split; [assumption|]. split; assumption.
  - pose proof (candidate_outside g ltac:(lia)) as Hc.
    destruct (Z_le_gt_dec (candidate g) (m_range g)) as [Hacc|Hrej].
    + destruct k as [|k].
      { exists []. split; [reflexivity|]. split; constructor. }
      destruct (Hcycle (advance g) k (advance_valid g Hv) eq_refl eq_refl
                  (proj2 (advance_index g Hv)) ltac:(lia))
        as (outs & Hout & Hnd & Hall & Hlow).
      exists (candidate g :: outs). unfold outputs in *.
      rewrite run_next_S, next_accept by (assumption || lia).
      destruct (run_next k (advance g)) as [[rest g'']|]; [|discriminate].
      cbn [option_map fst] in *. injection Hout as ->.
      split; [reflexivity|]. split.
      * constructor; [|assumption]. intros Hin.
        rewrite Forall_forall in Hlow. apply Hlow in Hin. lia.
      * constructor; [|assumption].
        pose proof (valid_index g Hv). lia.
    + rewrite outputs_reject by (assumption || lia).
      destruct (Hcycle (advance g) k (advance_valid g Hv) eq_refl eq_refl
                  (proj2 (advance_index g Hv)) (Nat.le_refl k))
        as (outs & H1 & H2 & H3 & _).
      exists outs. split; [assumption|]. split; assumption.
Qed.

Lemma ctor_prime_ge_range (range seed : Z) (g : UniqueSeq) :
  1 <= range <= 4294967291 -> UniqueSeq_ctor range seed = Some g ->
  valid g /\ m_range g = range /\ range <= m_prime g.
Proof.
  intros Hr Hctor.
  destruct (reachable_valid range seed g (reach_ctor _ _ _ Hctor))
    as (Hv & Hrg & Hsel).
  rewrite (u32_small range) in Hrg, Hsel by lia.
  unfold selected_prime in Hsel.
  destruct (Z.gtb_spec range 4294967291) as [|_]; [lia|].
  destruct Hsel as ((_ & Hle & _) & _).
  split; [assumption|]. split; assumption.
Qed.

(** The prime depends on the range alone. *)
Lemma selected_prime_unique (range p q : Z) :
  selected_prime range p -> selected_prime range q -> p = q.
Proof.
  unfold selected_prime. destruct (range >? 4294967291).
  - intros -> ->. reflexivity.
  - intros ((Hp & Hpr & Hpl) & _) ((Hq & Hqr & Hql) & _).
    pose proof (Hpl q Hq Hqr). pose proof (Hql p Hp Hpr). lia.
Qed.

Lemma after_next (range seed : Z) (g : UniqueSeq) (res : Z)
    (g' : UniqueSeq) :
  reachable range seed g -> next g = Returned res g' ->
  valid g' /\ m_index g' < m_prime g' /\ m_range g' = u32 range /\
  selected_prime (u32 range) (m_prime g') /\
  m_intermediateOffset g' = u32 (m_prime g' - u32 range).
Proof.
  intros Hreach Hnext.
  pose proof (reach_next _ _ _ _ _ Hreach Hnext) as Hreach'.
  destruct (reachable_valid range seed g Hreach) as (Hv & _).
  destruct (next_valid g res g' Hv Hnext) as (Hv' & Hi & _).
  destruct (reachable_valid range seed g' Hreach') as (_ & Hr & Hsel).
  destruct (UniqueSeq_ctor_spec range seed)
    as (g0 & Hg0 & _ & _ & _ & _ & Ho).
  destruct (reachable_fields range seed g0 g' Hg0 Hreach') as (Hp & _ & Ho').
  split; [assumption|]. split; [assumption|]. split; [assumption|].
  split; [assumption|]. rewrite Ho', Hp. exact Ho.
Qed.

(** Two states of one cycle: the values accepted during a period from the
    second are those from the first, rotated. *)
Lemma accepted_rotation (g h : UniqueSeq) :
  valid g -> 0 <= m_range g -> m_index g < m_prime g ->
  valid h -> m_index h < m_prime h ->
  m_prime h = m_prime g -> m_range h = m_range g ->
  m_intermediateOffset h = m_intermediateOffset g ->
  exists k,
    accepted (Z.to_nat (m_prime h)) h =
    skipn k (accepted (Z.to_nat (m_prime g)) g) ++
    firstn k (accepted (Z.to_nat (m_prime g)) g).
Proof.
  intros Hvg Hr Hig Hvh Hih Hp Hrg Ho.
  pose proof (valid_prime_bounds g Hvg) as Hb.
  pose proof (valid_index g Hvg) as Hg0.
  pose proof (valid_index h Hvh) as Hh0.
  set (P := Z.to_nat (m_prime g)).
  set (d := Z.to_nat ((m_index h - m_index g) mod m_prime g)).
  pose proof (Z.mod_pos_bound (m_index h - m_index g) (m_prime g)
                ltac:(lia)) as Hd.
  assert (Hh : Nat.iter d advance g = h).
  { destruct (iter_advance_fields d g) as (Hp' & Hr' & Ho').
    apply UniqueSeq_ext; try congruence.
    rewrite iter_advance_index by assumption. unfold d.
    rewrite Z2Nat.id by lia.
    rewrite Zplus_mod_idemp_r.
    replace (m_index g + (m_index h - m_index g)) with (m_index h) by lia.
    apply Z.mod_small. lia. }
  assert (H1 : accepted (d + P) g = accepted d g ++ accepted P h)
    by (rewrite accepted_app, Hh; reflexivity).
  assert (H2 : accepted (P + d) g = accepted P g ++ accepted d g).
  { rewrite accepted_app. unfold P at 2.
    rewrite advance_period by assumption. reflexivity. }
  assert (H3 : accepted P g =
               accepted d g ++ accepted (P - d) (Nat.iter d advance g)).
  { rewrite <- accepted_app. f_equal. unfold P, d. lia. }
  rewrite Nat.add_comm, H2, H3, <- app_assoc in H1.
  apply app_inv_head in H1.
  exists (length (accepted d g)).
  rewrite Hp. fold P. rewrite H3 at 1 2.
  rewrite skipn_app, firstn_app, Nat.sub_diag, skipn_all, firstn_all.
  cbn [skipn firstn]. rewrite app_nil_r. symmetry. exact H1.
Qed.

(** X1. For every range from 1 to 4294967291, itself a suitable prime or
    not, and every seed, the first [range] values of a fresh generator are
    pairwise distinct and lie in [[0, range]]; so is every shorter
    prefix. *)
Theorem first_values_distinct (range seed : Z) (g : UniqueSeq) (k : nat) :
  1 <= range <= 4294967291 -> UniqueSeq_ctor range seed = Some g ->
  Z.of_nat k <= range ->
  exists outs,
    outputs k g = Some outs /\ NoDup outs /\
    Forall (fun v => 0 <= v <= range) outs.
Proof.
  intros Hr Hctor Hk.
  destruct (ctor_prime_ge_range range seed g Hr Hctor) as (Hv & Hrg & Hle).
  rewrite <- Hrg. apply outputs_prefix_distinct; [assumption | lia | lia].
Qed.

Lemma first_values_distinct_witness :
  exists outs,
    outputs 3 (mkUniqueSeq 4 0 3 3) = Some outs /\ NoDup outs /\
    Forall (fun v => 0 <= v <= 3) outs.
Proof.
  apply (first_values_distinct 3 1);
    [lia | vm_compute; reflexivity | vm_compute; discriminate].
Defined.

(** X2. After its first call a generator with a range of at least 1 goes
    round one cycle for ever: the next [min (range + 1) m_prime] values are
    pairwise distinct, they are the integers from 0 to
    [min range (m_prime - 1)], and any longer run of values is this cycle
    followed by the run that is shorter by one cycle. *)
Theorem values_repeat (range seed : Z) (g : UniqueSeq) (res : Z)
    (g1 : UniqueSeq) :
  1 <= range < 2 ^ 32 ->
  reachable range seed g -> next g = Returned res g1 ->
  exists cycle,
    Z.of_nat (length cycle) = Z.min (range + 1) (m_prime g1) /\
    NoDup cycle /\
    (forall v, In v cycle <-> 0 <= v <= Z.min range (m_prime g1 - 1)) /\
    forall m, exists outs,
      outputs m g1 = Some outs /\
      outputs (length cycle + m) g1 = Some (cycle ++ outs).
Proof.
  intros Hr Hreach Hnext.
  destruct (after_next range seed g res g1 Hreach Hnext)
    as (Hv & Hi & Hrg & _).
  rewrite u32_small in Hrg by lia.
  pose proof (valid_prime_bounds g1 Hv) as Hb.
  destruct (accepted_one_period g1 Hv ltac:(lia) Hi) as (Hnd & Hin & Hlen).
  rewrite Hrg in Hin, Hlen.
  exists (accepted (Z.to_nat (m_prime g1)) g1).
  split; [rewrite Hlen; lia|]. split; [assumption|]. split; [assumption|].
  intros m. apply outputs_periodic; [assumption | lia | assumption].
Qed.

Lemma values_repeat_witness :
  exists cycle,
    Z.of_nat (length cycle) =
      Z.min (10 + 1) (m_prime (mkUniqueSeq 4 1 11 10)) /\
    NoDup cycle /\
    (forall v, In v cycle <->
       0 <= v <= Z.min 10 (m_prime (mkUniqueSeq 4 1 11 10) - 1)) /\
    forall m, exists outs,
      outputs m (mkUniqueSeq 4 1 11 10) = Some outs /\
      outputs (length cycle + m) (mkUniqueSeq 4 1 11 10) =
        Some (cycle ++ outs).
Proof.
  apply (values_repeat 10 1 (mkUniqueSeq 13 1 11 10) 7); [lia | |].
  - apply reach_ctor. vm_compute. reflexivity.
  - vm_compute. reflexivity.
Defined.

(** X3. The seed only chooses where in the cycle a generator starts: for
    one range and two seeds, the cycle of values the second generator goes
    round (after its first call) is the cycle of the first, rotated. *)
Theorem seeds_rotate_one_cycle (range seed1 seed2 : Z)
    (ga : UniqueSeq) (r1 : Z) (g1 : UniqueSeq)
    (gb : UniqueSeq) (r2 : Z) (g2 : UniqueSeq) :
  1 <= range < 2 ^ 32 ->
  reachable range seed1 ga -> next ga = Returned r1 g1 ->
  reachable range seed2 gb -> next gb = Returned r2 g2 ->
  exists cycle1 cycle2 k,
    outputs (Z.to_nat (Z.min (range + 1) (m_prime g1))) g1 = Some cycle1 /\
    outputs (Z.to_nat (Z.min (range + 1) (m_prime g1))) g2 = Some cycle2 /\
    cycle2 = skipn k cycle1 ++ firstn k cycle1.
Proof.
  intros Hr Hra Hna Hrb Hnb.
  destruct (after_next range seed1 ga r1 g1 Hra Hna)
    as (Hv1 & Hi1 & Hrg1 & Hsel1 & Ho1).
  destruct (after_next range seed2 gb r2 g2 Hrb Hnb)
    as (Hv2 & Hi2 & Hrg2 & Hsel2 & Ho2).
  pose proof (selected_prime_unique _ _ _ Hsel2 Hsel1) as Hp.
  rewrite u32_small in Hrg1, Hrg2 by lia.
  destruct (accepted_one_period g1 Hv1 ltac:(lia) Hi1) as (_ & _ & Hlen1).
  destruct (accepted_one_period g2 Hv2 ltac:(lia) Hi2) as (_ & _ & Hlen2).
  destruct (accepted_rotation g1 g2 Hv1 ltac:(lia) Hi1 Hv2 Hi2 Hp
              ltac:(congruence) ltac:(congruence)) as (k & Hrot).
  exists (accepted (Z.to_nat (m_prime g1)) g1),
         (accepted (Z.to_nat (m_prime g2)) g2), k.
  split; [|split; [|exact Hrot]].
  - rewrite <- Hrg1, <- Hlen1. apply outputs_accepted; [assumption | lia].
  - rewrite <- Hp, <- Hrg2, <- Hlen2.
    apply outputs_accepted; [assumption | lia].
Qed.

Lemma seeds_rotate_one_cycle_witness :
  exists cycle1 cycle2 k,
    outputs (Z.to_nat (Z.min (10 + 1) (m_prime (mkUniqueSeq 4 1 11 10))))
      (mkUniqueSeq 4 1 11 10) = Some cycle1 /\
    outputs (Z.to_nat (Z.min (10 + 1) (m_prime (mkUniqueSeq 4 1 11 10))))
      (mkUniqueSeq 7 1 11 10) = Some cycle2 /\
    cycle2 = skipn k cycle1 ++ firstn k cycle1.
Proof.
  apply (seeds_rotate_one_cycle 10 1 2
           (mkUniqueSeq 13 1 11 10) 7 (mkUniqueSeq 4 1 11 10)
           (mkUniqueSeq 16 1 11 10) 2 (mkUniqueSeq 7 1 11 10)); [lia | | | |].
  - apply reach_ctor. vm_compute. reflexivity.
  - vm_compute. reflexivity.
  - apply reach_ctor. vm_compute. reflexivity.
  - vm_compute. reflexivity.
Defined.

Lemma candidate_zero_index (g : UniqueSeq) :
  valid g -> candidate g = 0 -> m_index g = 0.
Proof.
  intros Hv Hc. pose proof (valid_prime_bounds g Hv) as Hb.
  pose proof (valid_index g Hv) as Hi0.
  destruct (valid_prime g Hv) as [Hp Hm].
  destruct (Z_lt_ge_dec (m_index g) (m_prime g)) as [Hi|Hi].
  - unfold candidate in Hc.
    pose proof (permuteQPR_range _ Hp Hm ltac:(lia) (m_index g)
                  ltac:(lia)) as H1.
    pose proof (permuteQPR_0 (m_prime g) Hp Hm ltac:(lia)) as H0.
    assert (H2 : permuteQPR (m_prime g) (m_index g) = 0).
    { apply (permuteQPR_inj (m_prime g) Hp Hm); [lia | lia | lia |].
      rewrite H0. exact Hc. }
    apply (permuteQPR_inj (m_prime g) Hp Hm); [lia | lia | lia |].
    rewrite H0. exact H2.
  - rewrite candidate_outside in Hc by lia. lia.
Qed.

(** X4. In every generator with a range of at least 1 the value 0 is
    followed by the value 1: when a call of [next()] returns 0, the next
    call returns 1. *)
Theorem zero_then_one (range seed : Z) (g g1 : UniqueSeq) :
  1 <= range < 2 ^ 32 ->
  reachable range seed g -> next g = Returned 0 g1 ->
  exists g2, next g1 = Returned 1 g2.
Proof.
  intros Hr Hreach Hnext.
  destruct (reachable_valid range seed g Hreach) as (Hv & Hrg & _).
  rewrite u32_small in Hrg by lia.
  pose proof (valid_prime_bounds g Hv) as Hb.
  pose proof Hnext as Hrounds.
  apply next_rounds in Hrounds. destruct Hrounds as (_ & n & _ & Hrounds).
  apply rounds_trace in Hrounds. destruct Hrounds as (_ & _ & Hres & Hg1).
  set (h := Nat.iter n advance g) in *.
  assert (Hvh : valid h) by (apply iter_advance_valid, Hv).
  destruct (iter_advance_fields n g) as (Hph & Hrh & _). fold h in Hph, Hrh.
  assert (Hih : m_index h = 0)
    by (apply candidate_zero_index; [assumption | congruence]).
  assert (Hv1 : valid g1) by (subst g1; apply advance_valid, Hvh).
  assert (Hi1 : m_index g1 = 1).
  { subst g1. rewrite Nat.iter_succ. fold h.
    unfold advance. cbn [set_index m_index]. rewrite Hih, Hph.
    rewrite u32_small by lia. apply Z.mod_small. lia. }
  assert (Hr1 : m_range g1 = range).
  { subst g1. rewrite Nat.iter_succ. fold h.
    change (m_range (advance h)) with (m_range h). congruence. }
  exists (advance g1).
  rewrite <- (candidate_small_index g1 Hv1 ltac:(lia)) in Hi1.
  rewrite <- Hi1. apply next_accept.
  - pose proof (valid_prime_bounds g1 Hv1). lia.
  - rewrite Hi1, Hr1. lia.
Qed.

Lemma zero_then_one_witness :
  exists g2, next (mkUniqueSeq 1 1 11 10) = Returned 1 g2.
Proof.
  apply (zero_then_one 10 3 (mkUniqueSeq 21 1 11 10)); [lia | |].
  - apply reach_ctor. vm_compute. reflexivity.
  - vm_compute. reflexivity.
Defined.

Section Symmetry.

Variable p : Z.
Hypothesis p_prime : prime p.
Hypothesis p_mod4 : p mod 4 = 3.
Hypothesis p_uint : p < 2 ^ 32.

Lemma permuteQPR_opp (x : Z) :
  0 < x < p -> permuteQPR p (p - x) = p - permuteQPR p x.
Proof.
  pose proof (p_ge_3 p p_prime p_mod4) as Hp3.
  pose proof (half_odd p p_mod4) as Hhalf. intros Hx.
  rewrite !permuteQPR_unfold by (assumption || lia).
  assert (Hsq : ((p - x) * (p - x)) mod p = (x * x) mod p).
  { replace ((p - x) * (p - x)) with (x * x + (p - 2 * x) * p) by lia.
    apply Z.mod_add. lia. }
  rewrite Hsq.
  destruct (Z.leb_spec x (p / 2)); destruct (Z.leb_spec (p - x) (p / 2));
    lia.
Qed.

Lemma permuteQPR_positive (x : Z) : 0 < x < p -> 0 < permuteQPR p x < p.
Proof.
  pose proof (p_ge_3 p p_prime p_mod4) as Hp3. intros Hx.
  pose proof (permuteQPR_range p p_prime p_mod4 p_uint x ltac:(lia)).
  destruct (Z.eq_dec (permuteQPR p x) 0) as [H0|]; [|lia].
  rewrite <- (permuteQPR_0 p p_prime p_mod4 p_uint) in H0.
  apply permuteQPR_inj in H0; (assumption || lia).
Qed.

End Symmetry.

(** X5. The permutation is odd modulo a suitable prime, and so is the
    candidate of [next()]: for [0 < x < p], [permuteQPR] sends [p - x] to
    [p] minus the image of [x], and the candidate at index [p - x] is [p]
    minus the candidate at index [x]. *)
Theorem permuteQPR_odd (p x : Z) :
  prime p -> p mod 4 = 3 -> p < 2 ^ 32 -> 0 < x < p ->
  permuteQPR p (p - x) = p - permuteQPR p x /\
  permuteQPR p (permuteQPR p (p - x)) =
    p - permuteQPR p (permuteQPR p x).
Proof.
  intros Hp Hm Hu Hx.
  pose proof (permuteQPR_opp p Hp Hm Hu x Hx) as H1.
  split; [exact H1|]. rewrite H1.
  apply permuteQPR_opp; try assumption.
  apply permuteQPR_positive; assumption.
Qed.

Lemma permuteQPR_odd_witness :
  permuteQPR 11 (11 - 3) = 11 - permuteQPR 11 3 /\
  permuteQPR 11 (permuteQPR 11 (11 - 3)) =
    11 - permuteQPR 11 (permuteQPR 11 3).
Proof.
  apply (permuteQPR_odd 11 3);
    [apply is_prime_spec; vm_compute; reflexivity
    | reflexivity | reflexivity | lia].
Defined.

(** ** [check] *)

Lemma check_inner_spec (seq : list Z) (i : Z) (trips : nat) (j : Z) :
  0 <= j -> j + Z.of_nat trips = Z.of_nat (length seq) ->
  Z.of_nat (length seq) <= int_max ->
  (check_inner seq i j trips = Returns tt /\
   forall j', j <= j' < Z.of_nat (length seq) ->
     nth (Z.to_nat i) seq 0 <> nth (Z.to_nat j') seq 0) \/
  (exists j', j <= j' < Z.of_nat (length seq) /\
     nth (Z.to_nat i) seq 0 = nth (Z.to_nat j') seq 0 /\
     (forall j'', j <= j'' < j' ->
        nth (Z.to_nat i) seq 0 <> nth (Z.to_nat j'') seq 0) /\
     check_inner seq i j trips =
       Throws (sequence_mismatch i j' (nth (Z.to_nat i) seq 0))).
Proof.
  revert j. induction trips as [|trips IH]; intros j Hj Hcount Hmax.
  - left. split; [reflexivity|]. intros j' Hj'. lia.
  - cbn [check_inner].
    destruct (Z.eqb_spec (nth (Z.to_nat i) seq 0) (nth (Z.to_nat j) seq 0))
      as [Heq|Hne].
    + right. exists j. split; [lia|]. split; [exact Heq|].
      split; [intros j'' Hj''; lia | reflexivity].
    + destruct (Z.eqb_spec j int_max) as [|_]; [lia|].
      destruct (IH (j + 1)) as [(Hret & Hall)|(j' & Hj' & Heq & Hmin & Hthr)];
        [lia | lia | lia | |].
      * left. split; [exact Hret|]. intros j' Hj'.
        destruct (Z.eq_dec j' j) as [->|]; [exact Hne | apply Hall; lia].
      * right. exists j'. split; [lia|]. split; [exact Heq|].
        split; [|exact Hthr]. intros j'' Hj''.
        destruct (Z.eq_dec j'' j) as [->|]; [exact Hne | apply Hmin; lia].
Qed.

Lemma check_outer_spec (seq : list Z) (trips : nat) (i : Z) :
  0 <= i -> i + Z.of_nat trips = Z.of_nat (length seq) ->
  Z.of_nat (length seq) <= int_max ->
  (check_outer seq i trips = Returns tt /\
   forall i' j', i <= i' -> i' < j' < Z.of_nat (length seq) ->
     nth (Z.to_nat i') seq 0 <> nth (Z.to_nat j') seq 0) \/
  (exists i' j', i <= i' /\ i' < j' < Z.of_nat (length seq) /\
     nth (Z.to_nat i') seq 0 = nth (Z.to_nat j') seq 0 /\
     (forall i'' j'', i <= i'' -> i'' < j'' < Z.of_nat (length seq) ->
        nth (Z.to_nat i'') seq 0 = nth (Z.to_nat j'') seq 0 ->
        i' < i'' \/ (i' = i'' /\ j' <= j'')) /\
     check_outer seq i trips =
       Throws (sequence_mismatch i' j' (nth (Z.to_nat i') seq 0))).
Proof.
  revert i. induction trips as [|trips IH]; intros i Hi Hcount Hmax.
  - left. split; [reflexivity|]. intros i' j' Hi' Hj'. lia.
  - cbn [check_outer]. destruct (Z.eqb_spec i int_max) as [|_]; [lia|].
    destruct (check_inner_spec seq i
                (Z.to_nat (Z.of_nat (length seq) - (i + 1))) (i + 1))
      as [(Hret & Hall)|(j' & Hj' & Heq & Hmin & Hthr)]; [lia | lia | lia | |].
    + rewrite Hret.
      destruct (IH (i + 1))
        as [(Hret' & Hall')|(i' & j' & Hi' & Hj' & Heq & Hmin & Hthr)];
        [lia | lia | lia | |].
      * left. split; [exact Hret'|]. intros i' j' Hi' Hj'.
        destruct (Z.eq_dec i' i) as [->|];
          [apply Hall; lia | apply Hall'; lia].
      * right. exists i', j'. split; [lia|]. split; [lia|].
        split; [exact Heq|]. split; [|exact Hthr].
        intros i'' j'' Hi'' Hj'' Heq'.
        destruct (Z.eq_dec i'' i) as [->|]; [|apply Hmin; (lia || assumption)].
        exfalso. apply (Hall j''); [lia | exact Heq'].
    + rewrite Hthr. right. exists i, j'. split; [lia|]. split; [lia|].
      split; [exact Heq|]. split; [|reflexivity].
      intros i'' j'' Hi'' Hj'' Heq'.
      destruct (Z.eq_dec i'' i) as [->|]; [|left; lia].
      right. split; [reflexivity|].
      destruct (Z_le_gt_dec j' j'') as [|Hlt]; [assumption|].
      exfalso. apply (Hmin j''); [lia | exact Heq'].
Qed.

Lemma check_cases (seq : list Z) :
  Z.of_nat (length seq) <= int_max ->
  (check seq = Returns tt /\ NoDup seq) \/
  (exists i j, first_duplicate seq i j /\
     check seq =
       Throws (sequence_mismatch (Z.of_nat i) (Z.of_nat j) (nth i seq 0))).
Proof.
  intros Hmax. unfold check.
  destruct (check_outer_spec seq (length seq) 0)
    as [(Hret & Hall)|(i & j & Hi & Hj & Heq & Hmin & Hthr)];
    [lia | lia | assumption | |].
  - left. split; [exact Hret|]. apply (NoDup_nth seq 0).
    intros a b Ha Hb Heq.
    destruct (Nat.lt_trichotomy a b) as [Hlt|[->|Hgt]]; [|reflexivity|];
      exfalso.
    + apply (Hall (Z.of_nat a) (Z.of_nat b)); [lia | lia|].
      rewrite !Nat2Z.id. exact Heq.
    + apply (Hall (Z.of_nat b) (Z.of_nat a)); [lia | lia|].
      rewrite !Nat2Z.id. symmetry. exact Heq.
  - right. exists (Z.to_nat i), (Z.to_nat j).
    rewrite !Z2Nat.id by lia. split; [|exact Hthr].
    split; [lia|]. split; [exact Heq|].
    intros i' j' Hij' Heq'.
    destruct (Hmin (Z.of_nat i') (Z.of_nat j')) as [Hlt|(He & Hle)];
      [lia | lia | rewrite !Nat2Z.id; exact Heq' | left; lia | right; lia].
Qed.

Lemma first_duplicate_not_NoDup (seq : list Z) (i j : nat) :
  first_duplicate seq i j -> ~ NoDup seq.
Proof.
  intros ((Hij & Hj) & Heq & _) Hnd.
  rewrite (NoDup_nth seq 0) in Hnd.
  assert (i = j) by (apply Hnd; [lia | lia | exact Heq]). lia.
Qed.

Lemma first_duplicate_unique (seq : list Z) (i j i' j' : nat) :
  first_duplicate seq i j -> first_duplicate seq i' j' -> i = i' /\ j = j'.
Proof.
  intros (Hij & Heq & Hmin) (Hij' & Heq' & Hmin').
  pose proof (Hmin i' j' Hij' Heq'). pose proof (Hmin' i j Hij Heq). lia.
Qed.

(** X6. On a sequence of at most [INT_MAX] elements [check] returns exactly
    when no two elements are equal. *)
Theorem check_accepts (seq : list Z) :
  Z.of_nat (length seq) <= int_max ->
  check seq = Returns tt <-> NoDup seq.
Proof.
  intros Hmax.
  destruct (check_cases seq Hmax) as [(Hret & Hnd)|(i & j & Hfirst & Hthr)].
  - split; intros _; assumption.
  - split.
    + rewrite Hthr. discriminate.
    + intros Hnd. exfalso.
      exact (first_duplicate_not_NoDup seq i j Hfirst Hnd).
Qed.

Lemma check_accepts_witness :
  check [7; 3; 9; 2] = Returns tt <-> NoDup [7; 3; 9; 2].
Proof. apply (check_accepts [7; 3; 9; 2]). vm_compute. discriminate. Defined.

(** X7. On a sequence of at most [INT_MAX] elements with two equal
    elements [check] throws, and the pair of positions it reports is the
    first one in its order of visit: the smallest [i] that has an equal
    element after it, with the smallest such [j > i].  It throws in no other
    case, and it never overflows a counter. *)
Theorem check_reports_first_pair (seq : list Z) (e : exception) :
  Z.of_nat (length seq) <= int_max ->
  (check seq = Throws e <->
   exists i j,
     first_duplicate seq i j /\
     e = sequence_mismatch (Z.of_nat i) (Z.of_nat j) (nth i seq 0)) /\
  check seq <> Undefined /\ check seq <> Unfinished.
Proof.
  intros Hmax.
  destruct (check_cases seq Hmax) as [(Hret & Hnd)|(i & j & Hfirst & Hthr)].
  - rewrite Hret. split; [|split; discriminate]. split; [discriminate|].
    intros (i & j & Hfirst & _). exfalso.
    exact (first_duplicate_not_NoDup seq i j Hfirst Hnd).
  - rewrite Hthr. split; [|split; discriminate]. split.
    + intros H. injection H as <-. exists i, j. split; [assumption|].
      reflexivity.
    + intros (i' & j' & Hfirst' & ->).
      destruct (first_duplicate_unique seq i j i' j' Hfirst Hfirst')
        as (<- & <-).
      reflexivity.
Qed.

Lemma check_reports_first_pair_witness :
  (check [2; 0; 1; 2; 0] = Throws (sequence_mismatch 0 3 2) <->
   exists i j,
     first_duplicate [2; 0; 1; 2; 0] i j /\
     sequence_mismatch 0 3 2 =
       sequence_mismatch (Z.of_nat i) (Z.of_nat j)
         (nth i [2; 0; 1; 2; 0] 0)) /\
  check [2; 0; 1; 2; 0] <> Undefined /\
  check [2; 0; 1; 2; 0] <> Unfinished.
Proof.
  apply (check_reports_first_pair [2; 0; 1; 2; 0]).
  vm_compute. discriminate.
Defined.

(** ** [chooseSmart] and [testRandom] *)

Lemma s32_small (x : Z) : 0 <= x <= int_max -> s32 x = x.
Proof.
  unfold s32, int_max. intros Hx. rewrite Z.mod_small by lia. lia.
Qed.

Lemma map_s32_small (l : list Z) (bound : Z) :
  bound <= int_max -> Forall (fun v => 0 <= v <= bound) l -> map s32 l = l.
Proof.
  intros Hb Hall. induction Hall as [|x l Hx _ IH]; [reflexivity|].
  cbn [map]. rewrite IH, s32_small by lia. reflexivity.
Qed.

(** For a universe size in [[1, INT_MAX]] and a count that is not negative
    [chooseSmart] returns the values of [count] calls of [next()]. *)
Lemma chooseSmart_returns (count universeSize : Z) :
  0 <= count -> 1 <= universeSize <= int_max ->
  exists g res,
    UniqueSeq_ctor universeSize 1 = Some g /\
    valid g /\ m_range g = universeSize /\ universeSize <= m_prime g /\
    outputs (Z.to_nat count) g = Some res /\
    chooseSmart count universeSize = Returns res /\
    Z.of_nat (length res) = count /\
    Forall (fun v => 0 <= v <= universeSize) res.
Proof.
  intros Hc Hu. unfold int_max in Hu.
  destruct (UniqueSeq_ctor_spec universeSize 1) as (g & Hg & _).
  destruct (ctor_prime_ge_range universeSize 1 g ltac:(lia) Hg)
    as (Hv & Hr & Hle).
  destruct (run_next_total (Z.to_nat count) g Hv ltac:(lia))
    as (res & g' & Hrun & Hlen & _ & _ & _ & Hall & _).
  rewrite Hr in Hall.
  exists g, res. split; [assumption|]. split; [assumption|].
  split; [assumption|]. split; [assumption|].
  split; [unfold outputs; rewrite Hrun; reflexivity|].
  split; [|split; [lia | assumption]].
  unfold chooseSmart. destruct (Z.ltb_spec count 0) as [|_]; [lia|].
  rewrite Hg, Hrun.
  rewrite (map_s32_small res universeSize) by (unfold int_max; lia || assumption).
  reflexivity.
Qed.

Lemma chooseSmart_distinct (count universeSize : Z) :
  0 <= count <= universeSize -> 1 <= universeSize <= int_max ->
  exists res,
    chooseSmart count universeSize = Returns res /\
    Z.of_nat (length res) = count /\ NoDup res /\
    Forall (fun v => 0 <= v <= universeSize) res.
Proof.
  intros Hc Hu.
  destruct (chooseSmart_returns count universeSize ltac:(lia) Hu)
    as (g & res & _ & Hv & Hr & Hle & Hout & Hret & Hlen & Hall).
  destruct (outputs_prefix_distinct g (Z.to_nat count) Hv ltac:(lia)
              ltac:(lia)) as (outs & Hout' & Hnd & _).
  assert (outs = res) by congruence. subst outs.
  exists res. split; [assumption|]. split; [assumption|].
  split; assumption.
Qed.

Lemma chooseSmart_checked (count universeSize : Z) :
  0 <= count <= universeSize -> 1 <= universeSize <= int_max ->
  exists res,
    chooseSmart count universeSize = Returns res /\
    check res = Returns tt.
Proof.
  intros Hc Hu.
  destruct (chooseSmart_distinct count universeSize Hc Hu)
    as (res & Hret & Hlen & Hnd & Hall).
  exists res. split; [assumption|].
  destruct (check_cases res ltac:(lia)) as [(Hok & _)|(i & j & Hfirst & _)];
    [exact Hok|].
  exfalso. exact (first_duplicate_not_NoDup res i j Hfirst Hnd).
Qed.

(** X8. Asked for at most [universeSize] values of a universe size in
    [[1, INT_MAX]], [chooseSmart] returns that many values, all in
    [[0, universeSize]] and pairwise distinct, and [check] accepts them. *)
Theorem chooseSmart_passes_check (count universeSize : Z) :
  0 <= count <= universeSize -> 1 <= universeSize <= int_max ->
  exists res,
    chooseSmart count universeSize = Returns res /\
    Z.of_nat (length res) = count /\
    Forall (fun v => 0 <= v <= universeSize) res /\
    NoDup res /\ check res = Returns tt.
Proof.
  intros Hc Hu.
  destruct (chooseSmart_distinct count universeSize Hc Hu)
    as (res & Hret & Hlen & Hnd & Hall).
  destruct (chooseSmart_checked count universeSize Hc Hu)
    as (res' & Hret' & Hcheck).
  assert (res' = res) by congruence. subst res'.
  exists res. split; [assumption|]. split; [assumption|].
  split; [assumption|]. split; assumption.
Qed.

Lemma chooseSmart_passes_check_witness :
  exists res,
    chooseSmart 3 3 = Returns res /\
    Z.of_nat (length res) = 3 /\
    Forall (fun v => 0 <= v <= 3) res /\
    NoDup res /\ check res = Returns tt.
Proof.
  apply (chooseSmart_passes_check 3 3); unfold int_max; lia.
Defined.

(** X9. Asked for more than [universeSize + 1] values, [chooseSmart] still
    returns [count] values of [[0, universeSize]]; some value is then there
    twice, and [check] throws on the result. *)
Theorem chooseSmart_oversized (count universeSize : Z) :
  1 <= universeSize <= int_max -> universeSize + 1 < count <= int_max ->
  exists res,
    chooseSmart count universeSize = Returns res /\
    Z.of_nat (length res) = count /\
    Forall (fun v => 0 <= v <= universeSize) res /\
    ~ NoDup res /\
    exists i j v, check res = Throws (sequence_mismatch i j v).
Proof.
  intros Hu Hc.
  destruct (chooseSmart_returns count universeSize ltac:(lia) Hu)
    as (g & res & _ & _ & _ & _ & _ & Hret & Hlen & Hall).
  assert (Hdup : ~ NoDup res).
  { intros Hnd.
    assert (Hincl : incl res (zrange (universeSize + 1))).
    { intros v Hv. apply In_zrange. rewrite Forall_forall in Hall.
      pose proof (Hall v Hv). lia. }
    pose proof (NoDup_incl_length Hnd Hincl) as Hle.
    rewrite length_zrange in Hle. lia. }
  exists res. split; [assumption|]. split; [assumption|].
  split; [assumption|]. split; [assumption|].
  destruct (check_cases res ltac:(lia)) as [(_ & Hnd)|(i & j & _ & Hthr)];
    [contradiction|].
  exists (Z.of_nat i), (Z.of_nat j), (nth i res 0). exact Hthr.
Qed.

Lemma chooseSmart_oversized_witness :
  exists res,
    chooseSmart 5 3 = Returns res /\
    Z.of_nat (length res) = 5 /\
    Forall (fun v => 0 <= v <= 3) res /\
    ~ NoDup res /\
    exists i j v, check res = Throws (sequence_mismatch i j v).
Proof.
  apply (chooseSmart_oversized 5 3); unfold int_max; lia.
Defined.

Lemma testRandom_smart_loop (checkValid : bool)
    (universeSize count_end count_inc : Z) (n : nat) (count : Z) :
  1 <= universeSize <= int_max -> count_end <= universeSize + 1 ->
  0 < count_inc -> count_end + count_inc <= int_max + 1 ->
  0 <= count -> count_end - count <= Z.of_nat n ->
  loop_nat (testRandom_step chooseSmart checkValid universeSize count_end
              count_inc) (Datatypes.S n) count = inr (Returns tt).
Proof.
  intros Hu He Hi Ho. revert count.
  induction n as [|n IH]; intros count Hc Hn; rewrite loop_nat_S;
    unfold testRandom_step at 1;
    destruct (Z.ltb_spec count count_end) as [Hlt|Hge];
    try reflexivity; try lia.
  destruct (chooseSmart_checked count universeSize ltac:(lia) Hu)
    as (res & Hret & Hcheck).
  rewrite Hret.
  assert (Hok : (if checkValid then check res else Returns tt) = Returns tt)
    by (destruct checkValid; [exact Hcheck | reflexivity]).
  rewrite Hok.
  destruct (Z.gtb_spec (count + count_inc) int_max); [lia|].
  destruct (Z.ltb_spec (count + count_inc) (- int_max - 1));
    [unfold int_max in *; lia|].
  cbn [orb]. apply IH; lia.
Qed.

(** X10. [testRandom] over [chooseSmart], with or without the validity
    check, returns without an exception for every universe size in
    [[1, INT_MAX]] when the counts stay in [[0, universeSize]], the
    increment is positive and the counter cannot overflow: no sequence
    [chooseSmart] builds there fails [check]. *)
Theorem testRandom_smart_passes (checkValid : bool)
    (universeSize count_start count_end count_inc : Z) :
  1 <= universeSize <= int_max ->
  0 <= count_start -> count_end <= universeSize + 1 ->
  0 < count_inc -> count_end + count_inc <= int_max + 1 ->
  testRandom chooseSmart checkValid universeSize count_start count_end
    count_inc = Returns tt.
Proof.
  intros Hu Hs He Hi Ho. unfold testRandom.
  assert (Hfuel : (Datatypes.S (Z.to_nat (count_end - count_start))
                   <= Pos.to_nat (2 ^ 32))%nat).
  { change (2 ^ 32)%positive with 4294967296%positive.
    unfold int_max in *. lia. }
  rewrite (loop_pos_done _ _ _ _ _ Hfuel
             (testRandom_smart_loop checkValid universeSize count_end
                count_inc (Z.to_nat (count_end - count_start)) count_start
                Hu He Hi Ho Hs ltac:(lia))).
  reflexivity.
Qed.

Lemma testRandom_smart_passes_witness :
  testRandom chooseSmart true 1000 10 100 1 = Returns tt.
Proof.
  apply (testRandom_smart_passes true 1000 10 100 1);
    unfold int_max; lia.
Defined.

(** ** The baselines [chooseNaive] and [chooseBitfield] *)

Lemma length_vec_set {A : Type} (l : list A) (i : nat) (v : A) :
  length (vec_set l i v) = length l.
Proof.
  revert i. induction l as [|x l IH]; intros [|i]; cbn [vec_set length];
    try reflexivity.
  rewrite IH. reflexivity.
Qed.

Lemma nth_vec_set {A : Type} (l : list A) (i j : nat) (v d : A) :
  (i < length l)%nat ->
  nth j (vec_set l i v) d = if (j =? i)%nat then v else nth j l d.
Proof.
  revert i j. induction l as [|x l IH]; intros i j Hi; [cbn in Hi; lia|].
  destruct i as [|i], j as [|j]; cbn [vec_set nth Nat.eqb]; try reflexivity.
  apply IH. cbn in Hi. lia.
Qed.

Lemma firstn_vec_set {A : Type} (l : list A) (i : nat) (v : A) :
  (i < length l)%nat ->
  firstn (Datatypes.S i) (vec_set l i v) = firstn i l ++ [v].
Proof.
  revert i. induction l as [|x l IH]; intros i Hi; [cbn in Hi; lia|].
  destruct i as [|i]; [reflexivity|].
  cbn [vec_set]. rewrite (firstn_cons (Datatypes.S i)), IH by (cbn in Hi; lia).
  reflexivity.
Qed.

Lemma skipn_nth_cons (l : list Z) (j : nat) :
  (j < length l)%nat -> skipn j l = nth j l 0 :: skipn (Datatypes.S j) l.
Proof.
  revert j. induction l as [|x l IH]; intros j Hj; [cbn in Hj; lia|].
  destruct j as [|j]; [reflexivity|].
  cbn [skipn nth]. apply IH. cbn in Hj. lia.
Qed.

Lemma naive_scan_from (res : list Z) (candidate : Z) (trips j : nat)
    (acc : bool) :
  (j + trips <= length res)%nat ->
  naive_scan res candidate (Z.of_nat j) trips acc =
  acc && negb (existsb (Z.eqb candidate) (firstn trips (skipn j res))).
Proof.
  revert j acc. induction trips as [|trips IH]; intros j acc Hlen.
  - cbn. rewrite andb_true_r. reflexivity.
  - cbn [naive_scan].
    replace (Z.of_nat j + 1) with (Z.of_nat (Datatypes.S j)) by lia.
    rewrite IH by lia. rewrite Nat2Z.id.
    rewrite (skipn_nth_cons res j) by lia.
    cbn [firstn existsb]. rewrite (Z.eqb_sym candidate).
    destruct (nth j res 0 =? candidate); cbn [orb negb];
      [rewrite andb_false_r; reflexivity | reflexivity].
Qed.

Lemma naive_scan_spec (res : list Z) (candidate : Z) (i : nat) :
  (i <= length res)%nat ->
  naive_scan res candidate 0 i true =
  negb (existsb (Z.eqb candidate) (firstn i res)).
Proof.
  intros Hi. apply (naive_scan_from res candidate i 0 true). lia.
Qed.

(** [chooseNaive]'s loop keeps the first [i] places of the result and fills
    the others with the values of the generator that are new, in the order
    they come. *)
Lemma naive_loop_spec (count : nat) (generator : Generator) (res : list Z)
    (i : nat) :
  length res = count -> (i <= count)%nat ->
  naive_loop (Z.of_nat count) res (Z.of_nat i) generator =
  if (count - i <=? length (first_occurrences (firstn i res) generator))%nat
  then Returns
         (firstn i res ++
          firstn (count - i) (first_occurrences (firstn i res) generator))
  else Unfinished.
Proof.
  revert res i. induction generator as [|c generator IH];
    intros res i Hlen Hi; cbn [naive_loop first_occurrences length].
  - destruct (Z.ltb_spec (Z.of_nat i) (Z.of_nat count)) as [Hlt|Hge].
    + destruct (Nat.leb_spec (count - i) 0); [lia | reflexivity].
    + assert (i = count) by lia. subst i.
      rewrite Nat.sub_diag. cbn [Nat.leb firstn].
      rewrite app_nil_r, <- Hlen, firstn_all. reflexivity.
  - destruct (Z.ltb_spec (Z.of_nat i) (Z.of_nat count)) as [Hlt|Hge].
    + rewrite Nat2Z.id, naive_scan_spec by lia.
      destruct (existsb (Z.eqb c) (firstn i res)) eqn:Hseen; cbn [negb].
      * apply IH; assumption.
      * replace (Z.of_nat i + 1) with (Z.of_nat (Datatypes.S i)) by lia.
        rewrite IH by (rewrite ?length_vec_set; lia).
        rewrite firstn_vec_set by lia. cbn [length].
        replace (count - i)%nat with (Datatypes.S (count - Datatypes.S i))
          by lia.
        cbn [Nat.leb firstn]. rewrite <- app_assoc. reflexivity.
    + assert (i = count) by lia. subst i.
      rewrite Nat.sub_diag. cbn [Nat.leb firstn].
      rewrite app_nil_r, <- Hlen, firstn_all. reflexivity.
Qed.

Lemma first_occurrences_spec (l seen : list Z) :
  NoDup (first_occurrences seen l) /\
  forall x, In x (first_occurrences seen l) <-> In x l /\ ~ In x seen.
Proof.
  revert seen. induction l as [|y l IH]; intros seen;
    cbn [first_occurrences].
  - split; [constructor|]. intros x. cbn. tauto.
  - destruct (existsb (Z.eqb y) seen) eqn:Hseen.
    + destruct (IH seen) as (Hnd & Hin). split; [exact Hnd|].
      intros x. rewrite Hin. cbn [In].
      apply existsb_exists in Hseen. destruct Hseen as (z & Hz & Hyz).
      apply Z.eqb_eq in Hyz. subst z.
      split; [tauto|]. intros ([->|Hx] & Hns); [contradiction | tauto].
    + destruct (IH (seen ++ [y])) as (Hnd & Hin).
      assert (Hy : ~ In y seen).
      { intros Hy. assert (existsb (Z.eqb y) seen = true); [|congruence].
        apply existsb_exists. exists y. split; [exact Hy | apply Z.eqb_refl]. }
      split.
      * constructor; [|exact Hnd]. rewrite Hin, in_app_iff. cbn. tauto.
      * intros x. cbn [In]. rewrite Hin, in_app_iff. cbn [In].
        destruct (Z.eq_dec y x) as [->|Hne]; tauto.
Qed.

Lemma chooseNaive_unfold (count universeSize : Z) (generator : Generator) :
  0 <= count -> 0 <= universeSize ->
  chooseNaive count universeSize generator =
  if (Z.to_nat count <=? length (first_occurrences [] generator))%nat
  then Returns (firstn (Z.to_nat count) (first_occurrences [] generator))
  else Unfinished.
Proof.
  intros Hc Hu. unfold chooseNaive.
  destruct (Z.ltb_spec count 0) as [|_]; [lia|].
  destruct (Z.ltb_spec universeSize 0) as [|_]; [lia|].
  pose proof (naive_loop_spec (Z.to_nat count) generator
                (repeat 0 (Z.to_nat count)) 0 (repeat_length _ _)
                (Nat.le_0_l _)) as H.
  rewrite Z2Nat.id in H by lia. cbn [Z.of_nat] in H. rewrite H.
  cbn [firstn app]. rewrite Nat.sub_0_r. reflexivity.
Qed.

Lemma seen_matches_start (universeSize : Z) (count : nat) :
  seen_matches universeSize (repeat 0 count)
    (repeat false (Z.to_nat (universeSize + 1))) 0.
Proof.
  split; [apply repeat_length|]. intros v _. cbn [firstn existsb].
  apply nth_repeat.
Qed.

Lemma seen_matches_step (universeSize : Z) (res : list Z)
    (alreadySeen : list bool) (i : nat) (c : Z) :
  seen_matches universeSize res alreadySeen i ->
  (i < length res)%nat -> 0 <= c <= universeSize ->
  seen_matches universeSize (vec_set res i c)
    (vec_set alreadySeen (Z.to_nat c) true) (Datatypes.S i).
Proof.
  intros (Hlen & Hseen) Hi Hc. split; [rewrite length_vec_set; exact Hlen|].
  intros v Hv. rewrite nth_vec_set by lia.
  rewrite firstn_vec_set, existsb_app by assumption. cbn [existsb].
  rewrite orb_false_r.
  destruct (Nat.eqb_spec (Z.to_nat v) (Z.to_nat c)) as [Heq|Hne].
  - assert (v = c) by lia. subst v. rewrite Z.eqb_refl, orb_true_r.
    reflexivity.
  - destruct (Z.eqb_spec v c) as [->|_]; [contradiction|].
    rewrite orb_false_r. apply Hseen, Hv.
Qed.

(** On a value of [[0, universeSize]] the bit test of [chooseBitfield]
    answers what the scan of [chooseNaive] answers. *)
Lemma bitfield_test (universeSize : Z) (res : list Z)
    (alreadySeen : list bool) (i : nat) (c : Z) :
  seen_matches universeSize res alreadySeen i ->
  (i <= length res)%nat -> 0 <= c <= universeSize ->
  (0 <=? c) && (c <? Z.of_nat (length alreadySeen)) = true /\
  negb (nth (Z.to_nat c) alreadySeen false) =
    naive_scan res c 0 i true.
Proof.
  intros (Hlen & Hseen) Hi Hc. split.
  - rewrite Hlen. apply andb_true_iff. split; [apply Z.leb_le; lia|].
    apply Z.ltb_lt. lia.
  - rewrite naive_scan_spec, Hseen by assumption. reflexivity.
Qed.

Lemma bitfield_loop_naive (universeSize : Z) (count : nat)
    (generator : Generator) (res : list Z) (alreadySeen : list bool)
    (i : nat) :
  Forall (fun d => 0 <= d <= universeSize) generator ->
  length res = count -> (i <= count)%nat ->
  seen_matches universeSize res alreadySeen i ->
  bitfield_loop (Z.of_nat count) res alreadySeen (Z.of_nat i) generator =
  naive_loop (Z.of_nat count) res (Z.of_nat i) generator.
Proof.
  intros Hall. revert res alreadySeen i.
  induction Hall as [|c generator Hc _ IH]; intros res alreadySeen i
    Hlen Hi Hinv; cbn [bitfield_loop naive_loop]; [reflexivity|].
  destruct (Z.ltb_spec (Z.of_nat i) (Z.of_nat count)) as [Hlt|_];
    [|reflexivity].
  destruct (bitfield_test universeSize res alreadySeen i c Hinv
              ltac:(lia) Hc) as (Hin & Htest).
  rewrite Hin, Htest, Nat2Z.id.
  destruct (naive_scan res c 0 i true); [|apply IH; assumption].
  replace (Z.of_nat i + 1) with (Z.of_nat (Datatypes.S i)) by lia.
  apply IH; [rewrite length_vec_set; assumption | lia|].
  apply seen_matches_step; [assumption | lia | assumption].
Qed.

Lemma chooseBitfield_unfold (count universeSize : Z)
    (generator : Generator) :
  0 <= count -> 0 <= universeSize < int_max ->
  chooseBitfield count universeSize generator =
  bitfield_loop count (repeat 0 (Z.to_nat count))
    (repeat false (Z.to_nat (universeSize + 1))) 0 generator.
Proof.
  intros Hc Hu. unfold chooseBitfield.
  destruct (Z.ltb_spec count 0) as [|_]; [lia|].
  destruct (Z.eqb_spec universeSize int_max) as [|_]; [lia|].
  destruct (Z.ltb_spec (universeSize + 1) 0) as [|_]; [lia|].
  destruct (Z.ltb_spec universeSize 0) as [|_]; [lia|].
  reflexivity.
Qed.

Lemma chooseBitfield_naive (count universeSize : Z)
    (generator : Generator) :
  0 <= count -> 0 <= universeSize < int_max ->
  Forall (fun d => 0 <= d <= universeSize) generator ->
  chooseBitfield count universeSize generator =
  chooseNaive count universeSize generator.
Proof.
  intros Hc Hu Hall. rewrite chooseBitfield_unfold by assumption.
  unfold chooseNaive.
  destruct (Z.ltb_spec count 0) as [|_]; [lia|].
  destruct (Z.ltb_spec universeSize 0) as [|_]; [lia|].
  pose proof (bitfield_loop_naive universeSize (Z.to_nat count) generator
                (repeat 0 (Z.to_nat count))
                (repeat false (Z.to_nat (universeSize + 1))) 0 Hall
                (repeat_length _ _) (Nat.le_0_l _)
                (seen_matches_start universeSize (Z.to_nat count))) as H.
  rewrite Z2Nat.id in H by lia. exact H.
Qed.

Lemma first_occurrences_bounded (universeSize : Z) (generator : Generator) :
  0 <= universeSize ->
  Forall (fun d => 0 <= d <= universeSize) generator ->
  Z.of_nat (length (first_occurrences [] generator)) <= universeSize + 1.
Proof.
  intros Hu Hall.
  destruct (first_occurrences_spec generator []) as (Hnd & Hin).
  assert (Hincl : incl (first_occurrences [] generator)
                    (zrange (universeSize + 1))).
  { intros x Hx. apply In_zrange. apply Hin in Hx. destruct Hx as (Hx & _).
    rewrite Forall_forall in Hall. pose proof (Hall x Hx). lia. }
  pose proof (NoDup_incl_length Hnd Hincl) as Hle.
  rewrite length_zrange in Hle. lia.
Qed.

(** X11. For a count and a universe size that are not negative,
    [chooseNaive] returns the first [count] distinct values its generator
    hands out, in the order in which they first come; it is still looping
    when the generator has handed out fewer than [count] distinct
    values. *)
Theorem chooseNaive_first_distinct (count universeSize : Z)
    (generator : Generator) :
  0 <= count -> 0 <= universeSize ->
  NoDup (first_occurrences [] generator) /\
  (forall x, In x (first_occurrences [] generator) <-> In x generator) /\
  chooseNaive count universeSize generator =
    if (Z.to_nat count <=? length (first_occurrences [] generator))%nat
    then Returns (firstn (Z.to_nat count) (first_occurrences [] generator))
    else Unfinished.
Proof.
  intros Hc Hu.
  destruct (first_occurrences_spec generator []) as (Hnd & Hin).
  split; [exact Hnd|]. split; [|apply chooseNaive_unfold; assumption].
  intros x. rewrite Hin. cbn [In]. tauto.
Qed.

Lemma chooseNaive_first_distinct_witness :
  NoDup (first_occurrences [] [4; 4; 1; 4; 0; 1; 5]) /\
  (forall x, In x (first_occurrences [] [4; 4; 1; 4; 0; 1; 5]) <->
             In x [4; 4; 1; 4; 0; 1; 5]) /\
  chooseNaive 3 5 [4; 4; 1; 4; 0; 1; 5] =
    if Nat.leb (Z.to_nat 3)
         (length (first_occurrences [] [4; 4; 1; 4; 0; 1; 5]))
    then Returns
           (firstn (Z.to_nat 3) (first_occurrences [] [4; 4; 1; 4; 0; 1; 5]))
    else Unfinished.
Proof. apply (chooseNaive_first_distinct 3 5); lia. Defined.

(** X12. Whatever [chooseNaive] returns has [count] elements, all of them
    handed out by the generator and no two equal, and [check] accepts
    it. *)
Theorem chooseNaive_passes_check (count universeSize : Z)
    (generator : Generator) (res : list Z) :
  count <= int_max ->
  chooseNaive count universeSize generator = Returns res ->
  Z.of_nat (length res) = count /\ NoDup res /\ incl res generator /\
  check res = Returns tt.
Proof.
  intros Hmax Hret.
  assert (Hc : 0 <= count).
  { unfold chooseNaive in Hret.
    destruct (Z.ltb_spec count 0); [discriminate | lia]. }
  assert (Hu : 0 <= universeSize).
  { unfold chooseNaive in Hret.
    destruct (Z.ltb_spec count 0); [discriminate|].
    destruct (Z.ltb_spec universeSize 0); [discriminate | lia]. }
  rewrite chooseNaive_unfold in Hret by assumption.
  destruct (first_occurrences_spec generator []) as (Hnd & Hin).
  destruct (Nat.leb_spec (Z.to_nat count)
              (length (first_occurrences [] generator))) as [Hle|];
    [|discriminate].
  injection Hret as <-.
  assert (Hlen : Z.of_nat (length (firstn (Z.to_nat count)
                   (first_occurrences [] generator))) = count).
  { rewrite length_firstn. lia. }
  assert (Hnd' : NoDup (firstn (Z.to_nat count)
                   (first_occurrences [] generator)))
    by (apply NoDup_firstn, Hnd).
  split; [exact Hlen|]. split; [exact Hnd'|]. split.
  - intros x Hx. apply (Hin x).
    rewrite <- (firstn_skipn (Z.to_nat count)
                  (first_occurrences [] generator)).
    apply in_or_app. left. exact Hx.
  - destruct (check_cases _ ltac:(rewrite Hlen; exact Hmax))
      as [(Hok & _)|(i & j & Hfirst & _)]; [exact Hok|].
    exfalso. exact (first_duplicate_not_NoDup _ i j Hfirst Hnd').
Qed.

Lemma chooseNaive_passes_check_witness :
  Z.of_nat (length [4; 1; 0]) = 3 /\ NoDup [4; 1; 0] /\
  incl [4; 1; 0] [4; 4; 1; 4; 0; 1; 5] /\
  check [4; 1; 0] = Returns tt.
Proof.
  apply (chooseNaive_passes_check 3 5 [4; 4; 1; 4; 0; 1; 5]).
  - unfold int_max. lia.
  - vm_compute. reflexivity.
Defined.

(** X13. On a generator that stays in [[0, universeSize]], as the
    distribution does, [chooseBitfield] does what [chooseNaive] does: the
    same result, or still looping on the same draws. *)
Theorem chooseBitfield_agrees_with_naive (count universeSize : Z)
    (generator : Generator) :
  0 <= count -> 0 <= universeSize < int_max ->
  Forall (fun d => 0 <= d <= universeSize) generator ->
  chooseBitfield count universeSize generator =
  chooseNaive count universeSize generator.
Proof. apply chooseBitfield_naive. Qed.

Lemma chooseBitfield_agrees_with_naive_witness :
  chooseBitfield 3 5 [4; 4; 1; 4; 0; 1; 5] =
  chooseNaive 3 5 [4; 4; 1; 4; 0; 1; 5].
Proof.
  apply (chooseBitfield_agrees_with_naive 3 5);
    [lia | unfold int_max; lia | repeat constructor; lia].
Defined.

(** X14. Asked for more than [universeSize + 1] values, the two baselines
    never return: however many values of [[0, universeSize]] the generator
    hands out, both are still looping. *)
Theorem baselines_never_return (count universeSize : Z)
    (generator : Generator) :
  0 <= universeSize < int_max -> universeSize + 1 < count ->
  Forall (fun d => 0 <= d <= universeSize) generator ->
  chooseNaive count universeSize generator = Unfinished /\
  chooseBitfield count universeSize generator = Unfinished.
Proof.
  intros Hu Hc Hall.
  assert (Hnaive : chooseNaive count universeSize generator = Unfinished).
  { rewrite chooseNaive_unfold by lia.
    pose proof (first_occurrences_bounded universeSize generator
                  ltac:(lia) Hall).
    destruct (Nat.leb_spec (Z.to_nat count)
                (length (first_occurrences [] generator)));
      [lia | reflexivity]. }
  split; [exact Hnaive|].
  rewrite chooseBitfield_naive by (assumption || lia). exact Hnaive.
Qed.

Lemma baselines_never_return_witness :
  chooseNaive 4 2 [0; 1; 2; 0; 1; 2] = Unfinished /\
  chooseBitfield 4 2 [0; 1; 2; 0; 1; 2] = Unfinished.
Proof.
  apply (baselines_never_return 4 2);
    [unfold int_max; lia | lia | repeat constructor; lia].
Defined.

(** X15. On the values its generator hands out, those of
    [[0, universeSize]], the bounds check of [alreadySeen.at] never fires:
    [chooseBitfield] throws nothing.  It is still looping, or it returns
    [count] values of [[0, universeSize]], no two equal, which [check]
    accepts; it returns only if [count] is at most [universeSize + 1]. *)
Theorem chooseBitfield_in_range (count universeSize : Z)
    (generator : Generator) :
  0 <= count <= int_max -> 0 <= universeSize < int_max ->
  Forall (fun d => 0 <= d <= universeSize) generator ->
  chooseBitfield count universeSize generator = Unfinished \/
  exists res,
    chooseBitfield count universeSize generator = Returns res /\
    Z.of_nat (length res) = count /\ count <= universeSize + 1 /\
    NoDup res /\ Forall (fun v => 0 <= v <= universeSize) res /\
    check res = Returns tt.
Proof.
  intros Hc Hu Hall.
  rewrite chooseBitfield_naive, chooseNaive_unfold by (assumption || lia).
  destruct (first_occurrences_spec generator []) as (Hnd & Hin).
  pose proof (first_occurrences_bounded universeSize generator
                ltac:(lia) Hall) as Hbound.
  destruct (Nat.leb_spec (Z.to_nat count)
              (length (first_occurrences [] generator))) as [Hle|];
    [right | left; reflexivity].
  exists (firstn (Z.to_nat count) (first_occurrences [] generator)).
  assert (Hlen : Z.of_nat (length (firstn (Z.to_nat count)
                   (first_occurrences [] generator))) = count).
  { rewrite length_firstn. lia. }
  assert (Hnd' : NoDup (firstn (Z.to_nat count)
                   (first_occurrences [] generator)))
    by (apply NoDup_firstn, Hnd).
  split; [reflexivity|]. split; [exact Hlen|]. split; [lia|].
  split; [exact Hnd'|]. split.
  - apply Forall_forall. intros x Hx.
    rewrite Forall_forall in Hall. apply Hall, (Hin x).
    rewrite <- (firstn_skipn (Z.to_nat count)
                  (first_occurrences [] generator)).
    apply in_or_app. left. exact Hx.
  - destruct (check_cases _ ltac:(rewrite Hlen; lia))
      as [(Hok & _)|(i & j & Hfirst & _)]; [exact Hok|].
    exfalso. exact (first_duplicate_not_NoDup _ i j Hfirst Hnd').
Qed.

Lemma chooseBitfield_in_range_witness :
  chooseBitfield 3 5 [4; 4; 1; 4; 0; 1; 5] = Unfinished \/
  exists res,
    chooseBitfield 3 5 [4; 4; 1; 4; 0; 1; 5] = Returns res /\
    Z.of_nat (length res) = 3 /\ 3 <= 5 + 1 /\
    NoDup res /\ Forall (fun v => 0 <= v <= 5) res /\
    check res = Returns tt.
Proof.
  apply (chooseBitfield_in_range 3 5);
    [unfold int_max; lia | unfold int_max; lia | repeat constructor; lia].
Defined.
